(** * Spin_Example/paper_example.ipynb: Q-learning of active Ising spins in one dimension

    A shallow embedding of the notebook's code cells.  Arrays are lists;
    [int32] spins are integers ([Z]); [float32] positions, velocities and
    Q-values are rationals ([Q]).  The arithmetic of [get_neighbors],
    [update_position] and of the mean rounds each result to the nearest
    float32 ([f32]); the random draws and the network are kept as exact
    expressions of what the library supplies.  A cell or function that can
    raise returns [option].  The notebook's global
    variables are threaded explicitly: the scalar parameters of the second
    cell in [Config], the variables the later cells read or assign in
    [Globals]. *)

From Stdlib Require Import ZArith QArith Qminmax Qround Qpower Qreduction Qcanon Lia Lqa Sorted.
From stdpp Require Import base option list.

Local Open Scope Z_scope.

(** ** Arrays *)

(** [a[i]] for a static index [i >= 0]: JAX clamps an index past the end to
    the last element; an empty array has no element and the read raises. *)
Definition at_index {A : Type} (a : list A) (i : nat) : option A :=
  a !! (i `min` (length a - 1))%nat.

(** [a.at[i].set(x)] is stdpp's [<[i:=x]> a]: an index past the end leaves
    the array as it is. *)

(** [a[mask]] for a boolean [mask]: the elements of [a] at the places where
    [mask] is true, in order; a mask of another length raises. *)
Fixpoint mask_select {A : Type} (a : list A) (mask : list bool) : option (list A) :=
  match a, mask with
  | [], [] => Some []
  | x :: a', b :: mask' =>
      r ← mask_select a' mask';
      Some (if b then x :: r else r)
  | _, _ => None
  end.

(** [jnp.sum] over an integer array; the empty sum is [0]. *)
Definition sum (a : list Z) : Z := foldr Z.add 0 a.

(** [x < y] on rationals, as a boolean. *)
Definition Qlt_bool (x y : Q) : bool := negb (Qle_bool y x).

(** [jnp.argmin]: the index of the first least element; raises on an empty
    array. *)
Fixpoint argmin_from (best : Q) (besti : nat) (i : nat) (a : list Q) : nat :=
  match a with
  | [] => besti
  | x :: a' =>
      if Qlt_bool x best then argmin_from x i (S i) a'
      else argmin_from best besti (S i) a'
  end.

Definition argmin (a : list Q) : option nat :=
  match a with
  | [] => None
  | x :: a' => Some (argmin_from x 0%nat 1%nat a')
  end.

(** ** float32

    The value the source computes for an arithmetic result is the float32
    nearest to the exact one, ties going to the even significand: 24
    significant bits, the smallest step [2^-149].  Overflow to infinity is
    not modelled (the values of a run stay far below [2^128]). *)

Section Rounding.
Local Open Scope Q_scope.

Definition pow2 (k : Z) : Q := 2 ^ k.

(** The binary exponent [e] of [a > 0]: [2^e <= a < 2^(e+1)]. *)
Definition mag (a : Q) : Z :=
  let e := (Z.log2 (Qnum a) - Z.log2 (Z.pos (Qden a)))%Z in
  if Qle_bool (pow2 e) a then e else (e - 1)%Z.

(** The nearest integer, the even one of two equally near. *)
Definition rne (x : Q) : Z :=
  let f := Qfloor x in
  match Qcompare (x - inject_Z f) (1 # 2) with
  | Lt => f
  | Gt => (f + 1)%Z
  | Eq => if Z.even f then f else (f + 1)%Z
  end.

(** The exponent of the unit in the last place of the binade of [a]. *)
Definition ulp_exp (a : Q) : Z := Z.max (mag a - 23) (-149).

Definition f32_nonneg (a : Q) : Q :=
  if Qle_bool a 0 then 0
  else
    let k := ulp_exp a in
    inject_Z (rne (a / pow2 k)) * pow2 k.

Definition f32 (q : Q) : Q :=
  let q := Qred q in
  Qred (if Qle_bool 0 q then f32_nonneg q else - f32_nonneg (- q)).

End Rounding.

(** ** Parameters (second code cell) *)

Record Config := {
  N : nat;           (* Number of spins *)
  L : Q;             (* Length of the system *)
  delta_x : Q;       (* Interaction range *)
  v1 : Q;            (* Speed bounds *)
  v2 : Q;
  alpha : Q;         (* Learning rate *)
  epsilon : Q;       (* Exploration rate *)
  delta_t : Q;       (* Time step *)
  num_actions : nat  (* Number of actions (flip or keep) *)
}.

(** The values the notebook assigns.  A real parameter is a Python float;
    where it meets a float32 array it is first rounded to float32. *)
Definition notebook_config : Config :=
  {| N := 10; L := 10; delta_x := 1; v1 := 1 # 10; v2 := 1;
     alpha := 1 # 10; epsilon := 1 # 10; delta_t := 1 # 10; num_actions := 2 |}.

(** ** Neighbor query *)

Section Neighbors.
Variable cfg : Config.

Definition get_neighbors (i : nat) (positions : list Q) (spins : list Z)
  : option (list Z) :=
  let positions := f32 <$> positions in  (* positions is a float32 array *)
  p ← at_index positions i;
  let left := f32 (p - f32 (delta_x cfg)) in
  let right := f32 (p + f32 (delta_x cfg)) in
  let mask := map (λ x, Qle_bool left x && Qle_bool x right) positions in
  mask_select spins mask.

End Neighbors.

(** ** The Q-network (third code cell)

    [QNetwork] is [Dense(128)], [relu], [Dense(num_actions)].  A dense layer
    holds a kernel of shape (inputs, features), here the list of its rows,
    and a bias of shape (features,). *)

Record DenseParams := { kernel : list (list Q); bias : list Q }.

Record Params := { Dense_0 : DenseParams; Dense_1 : DenseParams }.

(** [x @ kernel + bias]: the bias plus each row scaled by its input.  The
    operands have matching shapes under [well_shaped] below (the source
    raises on a mismatch, which initialisation and training never produce). *)
Definition Dense (p : DenseParams) (x : list Q) : list Q :=
  foldr (λ xr acc, zip_with Qplus (map (Qmult xr.1) xr.2) acc) (bias p) (zip x (kernel p)).

Definition relu (x : list Q) : list Q :=
  map (λ v, if Qle_bool 0 v then v else 0%Q) x.

Definition QNetwork (p : Params) (x : list Q) : list Q :=
  let x := Dense (Dense_0 p) x in
  let x := relu x in
  let x := Dense (Dense_1 p) x in
  x.

(** The shapes [q_net.init] gives the parameters for an input of two
    features. *)
Definition dense_shape (n_in n_out : nat) (d : DenseParams) : Prop :=
  length (kernel d) = n_in ∧ Forall (λ row, length row = n_out) (kernel d)
  ∧ length (bias d) = n_out.

Definition well_shaped (n_actions : nat) (p : Params) : Prop :=
  dense_shape 2 128 (Dense_0 p) ∧ dense_shape 128 n_actions (Dense_1 p).

(** ** The library operations the notebook calls

    The pseudo-random generator of [jax.random] is a family of pure
    functions of the key.  Its bit generator is left abstract: a draw of
    shape [(n,)] is given element by element. *)
Class Random := {
  Key : Type;
  PRNGKey : Z → Key;                      (* jax.random.PRNGKey(seed) *)
  split : Key → Key * Key;                (* jax.random.split(key) *)
  unit_uniform : Key → Q;                 (* jax.random.uniform(key), shape () *)
  unit_uniform_at : Key → nat → nat → Q;  (* element j of the draw of shape (n,) *)
  randint_at : Key → nat → nat → nat → nat; (* element j of n integers below a bound *)
  (* draws of [uniform] with the default bounds lie in [0, 1) *)
  unit_uniform_range : ∀ k, (0 <= unit_uniform k)%Q ∧ (unit_uniform k < 1)%Q;
  unit_uniform_at_range : ∀ k n j, (0 <= unit_uniform_at k n j)%Q ∧ (unit_uniform_at k n j < 1)%Q
}.

(** Parameter initialisation ([q_net.init]) and the optimiser
    ([optax.adam] under [jax.grad] of the squared error) are left abstract
    too; both keep the shapes of the parameters. *)
Class Optimiser `{Random} := {
  OptState : Type;
  q_net_init : nat → Key → Params;
  tx_init : Q → Params → OptState;
  (* one [apply_gradients] with the gradient, at the current parameters, of
     [mean((QNetwork(params, state_input) - target) ** 2)] *)
  tx_step : Params → OptState → list Q → list Q → Params * OptState;
  q_net_init_shape : ∀ n k, well_shaped n (q_net_init n k);
  tx_step_shape : ∀ n p o x t, well_shaped n p → well_shaped n (tx_step p o x t).1
}.

Section Notebook.
Context `{Optimiser}.

Record TrainState := { step : nat; params : Params; opt_state : OptState }.

(** [state.apply_fn(state.params, x)] *)
Definition apply_fn (state : TrainState) (x : list Q) : list Q :=
  QNetwork (params state) x.

(** The variables of the notebook that the later cells read or assign. *)
Record Globals := {
  key : Key;
  positions : list Q;
  spins : list Z;
  velocities : list Q;
  state : TrainState
}.

(** [jax.random.uniform(key, (n,), minval, maxval)] *)
Definition random_uniform (key : Key) (n : nat) (minval maxval : Q) : list Q :=
  map (λ j, Qmax minval (unit_uniform_at key n j * (maxval - minval) + minval)%Q) (seq 0 n).

(** [jax.random.choice(key, a, (n,))]: [a] at [n] drawn indices. *)
Definition random_choice {A : Type} (key : Key) (a : list A) (n : nat) : option (list A) :=
  mapM (λ j, at_index a (randint_at key n (length a) j)) (seq 0 n).

Definition create_train_state (cfg : Config) (key : Key) (learning_rate : Q) : TrainState :=
  let params := q_net_init (num_actions cfg) key in
  {| step := 0; params := params; opt_state := tx_init learning_rate params |}.

(** The second and fifth code cells up to [state = create_train_state(...)];
    the notebook's seed is [0]. *)
Definition initialize (cfg : Config) (seed : Z) : option Globals :=
  let key := PRNGKey seed in
  let positions := random_uniform key (N cfg) 0 (L cfg) in
  spins ← random_choice key [-1; 1] (N cfg);
  let velocities := random_uniform key (N cfg) (v1 cfg) (v2 cfg) in
  let '(key, subkey) := split key in
  let state := create_train_state cfg subkey (alpha cfg) in
  Some {| key := key; positions := positions; spins := spins;
          velocities := velocities; state := state |}.

Variable cfg : Config.

(** [update_spin] reads the globals [key] and [positions]. *)
Definition update_spin (g : Globals) (i : nat) (spins : list Z) (Qs : TrainState)
    (epsilon : Q) : option Z :=
  if Qlt_bool (unit_uniform (key g)) epsilon then
    s ← at_index spins i;
    Some (- s)  (* Random action: flip the spin *)
  else
    s ← at_index spins i;
    nb ← get_neighbors cfg i (positions g) spins;
    let state := [s; Z.sgn (sum nb)] in
    let q_values := apply_fn Qs (inject_Z <$> state) in
    action ← argmin q_values;
    Some (if (action =? 0)%nat then s else - s).  (* Greedy action based on Q values *)

Definition update_position (i : nat) (positions : list Q) (spins : list Z)
    (velocities : list Q) : option Q :=
  p ← at_index positions i;
  v ← at_index velocities i;
  s ← at_index spins i;
  Some (f32 (p + f32 (f32 (v * inject_Z s) * f32 (delta_t cfg)))).

(** [cost_function] reads the globals [state], [velocities] and, through
    [update_spin], [key] and [positions]. *)
Definition cost_function (g : Globals) (i : nat) (positions : list Q) (spins : list Z)
    : option Z :=
  neighbors_before ← get_neighbors cfg i positions spins;
  new_spin ← update_spin g i spins (state g) (epsilon cfg);
  new_position ← update_position i positions spins (velocities g);
  neighbors_after ← get_neighbors cfg i (<[i:=new_position]> positions) (<[i:=new_spin]> spins);
  Some (if (length neighbors_after <? length neighbors_before)%nat then 1 else 0).

(** The part of [update_Q] before the gradient: the network input, the
    action whose estimate is replaced, and the regression target. *)
Definition update_Q_target (g : Globals) (i : nat) (state : TrainState) (cost : Z)
    : option (list Q * nat * list Q) :=
  s ← at_index (spins g) i;
  nb ← get_neighbors cfg i (positions g) (spins g);
  let state_input := inject_Z <$> [s; Z.sgn (sum nb)] in
  let q_values := apply_fn state state_input in
  action ← argmin q_values;
  let target := <[action:=inject_Z cost]> q_values in
  Some (state_input, action, target).

(** [update_Q] reads the globals [spins] and [positions]. *)
Definition update_Q (g : Globals) (i : nat) (state : TrainState) (cost : Z)
    : option TrainState :=
  '(state_input, _, target) ← update_Q_target g i state cost;
  let '(params', opt') := tx_step (params state) (opt_state state) state_input target in
  Some {| step := S (step state); params := params'; opt_state := opt' |}.

(** Assignments to the globals [state], [spins] and [positions]. *)
Definition set_state (g : Globals) (st : TrainState) : Globals :=
  {| key := key g; positions := positions g; spins := spins g;
     velocities := velocities g; state := st |}.

Definition set_spins (g : Globals) (sp : list Z) : Globals :=
  {| key := key g; positions := positions g; spins := sp;
     velocities := velocities g; state := state g |}.

Definition set_positions (g : Globals) (ps : list Q) : Globals :=
  {| key := key g; positions := ps; spins := spins g;
     velocities := velocities g; state := state g |}.

(** The body of the inner loop of the simulation, for particle [i]. *)
Definition particle_update (g : Globals) (i : nat) : option Globals :=
  cost ← cost_function g i (positions g) (spins g);
  st ← update_Q g i (state g) cost;
  let g := set_state g st in
  s ← update_spin g i (spins g) (state g) (epsilon cfg);
  let g := set_spins g (<[i:=s]> (spins g)) in
  p ← update_position i (positions g) (spins g) (velocities g);
  Some (set_positions g (<[i:=p]> (positions g))).

(** [for i in range(N)], from particle [i] on. *)
Fixpoint sweep_from (g : Globals) (i n : nat) : option Globals :=
  match n with
  | O => Some g
  | S n' => g' ← particle_update g i; sweep_from g' (S i) n'
  end.

Definition sweep (g : Globals) : option Globals := sweep_from g 0 (N cfg).

(** [for t in range(num_steps)]; the notebook runs 100 steps. *)
Fixpoint simulation_loop (num_steps : nat) (g : Globals) : option Globals :=
  match num_steps with
  | O => Some g
  | S t => g' ← sweep g; simulation_loop t g'
  end.

Definition run (seed : Z) (num_steps : nat) : option Globals :=
  g ← initialize cfg seed; simulation_loop num_steps g.

End Notebook.

(** The run of the notebook as it stands. *)
Definition notebook_run `{Optimiser} : option Globals := run notebook_config 0 100.

Arguments TrainState {_ _}.
Arguments Globals {_ _}.

(** [average_magnetization = jnp.mean(spins)], the last statement of the
    loop cell: the sum over the number of spins, as a float32 (the sum of
    the integers is exact in float32 while it stays below [2^24]).  The mean
    of an empty array is [nan], which no rational stands for: [None]. *)
Definition average_magnetization (spins : list Z) : option Q :=
  match spins with
  | [] => None
  | _ => Some (f32 (inject_Z (sum spins) / inject_Z (Z.of_nat (length spins))))
  end.

(** ** The Ising environment (second notebook)

    [t_ising_env] keeps the couplings, the number of sites, a key and the
    chain.  Only [__init__] and [reset] are embedded: [local_energy] reads
    names that are bound nowhere and [step] calls a method the class does
    not have. *)
Record t_ising_env `{Random} := {
  env_J : Q;              (* interchange *)
  env_g : Q;              (* external field *)
  env_N : nat;            (* number of spin sites *)
  env_key : Key;
  env_state : list Z
}.

(** [reset]: advances [self.key] and returns a chain drawn with the subkey;
    it does not assign [self.state] itself.  The result is the environment
    with its new key, and the chain. *)
Definition reset `{Random} (self : t_ising_env) : option (t_ising_env * list Z) :=
  let '(key, subkey) := split (env_key self) in
  state ← random_choice subkey [-1; 1] (env_N self);
  Some ({| env_J := env_J self; env_g := env_g self; env_N := env_N self;
           env_key := key; env_state := env_state self |}, state).

(** [__init__(N, J, g, seed)]: the fields, then [self.state = self.reset()].
    Before that assignment the object has no chain yet; the empty list
    stands for it and [reset] does not read it. *)
Definition t_ising_env_init `{Random} (N : nat) (J g : Q) (seed : Z) : option t_ising_env :=
  let self := {| env_J := J; env_g := g; env_N := N; env_key := PRNGKey seed;
                 env_state := [] |} in
  '(self, state) ← reset self;
  Some {| env_J := env_J self; env_g := env_g self; env_N := env_N self;
          env_key := env_key self; env_state := state |}.

(** ** Predicates on the notebook's state *)

(** A spin value. *)
Definition pm1 (s : Z) : Prop := s = 1 ∨ s = -1.

(** The three particle arrays have length [N] and the network parameters
    have the shapes of their initialisation. *)
Definition well_formed `{Optimiser} (cfg : Config) (g : Globals) : Prop :=
  length (positions g) = N cfg ∧ length (spins g) = N cfg
  ∧ length (velocities g) = N cfg
  ∧ well_shaped (num_actions cfg) (params (state g)).

(** The domain the specification documents for the parameters: [N > 0],
    [v1 < v2], [alpha] and [epsilon] in [0, 1], [delta_t > 0].  No cell of
    the notebook tests it. *)
Definition documented_domain (cfg : Config) : Prop :=
  (0 < N cfg)%nat ∧ (v1 cfg < v2 cfg)%Q
  ∧ (0 <= alpha cfg)%Q ∧ (alpha cfg <= 1)%Q
  ∧ (0 <= epsilon cfg)%Q ∧ (epsilon cfg <= 1)%Q
  ∧ (0 < delta_t cfg)%Q.

(** The values the globals take while the loop runs from [g0]: [g0] itself
    and what each of the three assignments of the loop body makes of a
    value already taken. *)
Inductive during `{Optimiser} (cfg : Config) (g0 : Globals) : Globals → Prop :=
| during_start : during cfg g0 g0
| during_update_Q g i cost st :
    during cfg g0 g →
    cost_function cfg g i (positions g) (spins g) = Some cost →
    update_Q cfg g i (state g) cost = Some st →
    during cfg g0 (set_state g st)
| during_update_spin g i s :
    during cfg g0 g →
    update_spin cfg g i (spins g) (state g) (epsilon cfg) = Some s →
    during cfg g0 (set_spins g (<[i:=s]> (spins g)))
| during_update_position g i p :
    during cfg g0 g →
    update_position cfg i (positions g) (spins g) (velocities g) = Some p →
    during cfg g0 (set_positions g (<[i:=p]> (positions g))).

(** ** A concrete generator and optimiser, for running the definitions

    The theorems below hold for every [Random] and [Optimiser].  To evaluate
    the notebook on concrete inputs the two interfaces are instantiated by a
    small linear congruential generator and by gradient descent on the output
    bias. *)
Module Sample.

Definition mix (k j : Z) : Z := (1103515245 * (k + 7919 * j) + 12345) `mod` 2147483648.

Definition unit_of (z : Z) : Q := Qmake z 2147483648.

Lemma unit_of_mix_range k j : (0 <= unit_of (mix k j))%Q ∧ (unit_of (mix k j) < 1)%Q.
Proof.
unfold unit_of, mix, Qle, Qlt. simpl.
pose proof (Z.mod_pos_bound (1103515245 * (k + 7919 * j) + 12345) 2147483648 eq_refl).
lia.
Qed.

#[export] Instance lcg : Random := {|
  Key := Z;
  PRNGKey := λ seed, seed;
  split := λ k, (2 * k + 1, 2 * k + 2);
  unit_uniform := λ k, unit_of (mix k 0);
  unit_uniform_at := λ k n j, unit_of (mix (k + Z.of_nat n) (Z.of_nat (S j)));
  randint_at := λ k n bound j,
    Z.to_nat (mix (k + Z.of_nat n) (Z.of_nat (S j)) `mod` Z.of_nat bound);
  unit_uniform_range := λ k, unit_of_mix_range k 0;
  unit_uniform_at_range := λ k n j, unit_of_mix_range (k + Z.of_nat n) (Z.of_nat (S j))
|}.

(** Integer weights in {-1, 0, 1}, zero biases. *)
Definition weight (k : Z) (r c : nat) : Q :=
  inject_Z (mix k (Z.of_nat (r * 131 + c)) `mod` 3 - 1).

Definition init_dense (k : Z) (n_in n_out : nat) : DenseParams :=
  {| kernel := map (λ r, map (weight k r) (seq 0 n_out)) (seq 0 n_in);
     bias := replicate n_out 0%Q |}.

Definition init_params (n_actions : nat) (k : Z) : Params :=
  {| Dense_0 := init_dense k 2 128; Dense_1 := init_dense (k + 1) 128 n_actions |}.

(** One step of gradient descent on the output bias, whose gradient under
    the mean squared error is [2 / n * (q - target)]. *)
Definition bias_step (p : Params) (lr : Q) (x target : list Q) : Params * Q :=
  let q := QNetwork p x in
  let n := inject_Z (Z.of_nat (length q)) in
  let grad := zip_with (λ a b, Qred (2 / n * (a - b))) q target in
  ({| Dense_0 := Dense_0 p;
      Dense_1 := {| kernel := kernel (Dense_1 p);
                    bias := zip_with (λ b d, Qred (b - lr * d)) (bias (Dense_1 p))
                              (grad ++ replicate (length (bias (Dense_1 p))) 0%Q) |} |},
   lr).

Lemma init_dense_shape k n_in n_out : dense_shape n_in n_out (init_dense k n_in n_out).
Proof.
  unfold dense_shape, init_dense; simpl. repeat split.
  - by rewrite length_map, length_seq.
  - apply Forall_forall. intros row Hrow. apply list_elem_of_fmap in Hrow as (r & -> & _).
    by rewrite length_map, length_seq.
  - apply length_replicate.
Qed.

Lemma bias_step_shape n p lr x t : well_shaped n p → well_shaped n (bias_step p lr x t).1.
Proof.
  intros [H0 (Hk & Hrows & Hb)]. split; [exact H0|]. unfold dense_shape; simpl.
  repeat split; [exact Hk|exact Hrows|].
  rewrite length_zip_with, length_app, length_replicate. lia.
Qed.

#[export] Instance bias_descent : Optimiser := {|
  OptState := Q;
  q_net_init := init_params;
  tx_init := λ learning_rate _, learning_rate;
  tx_step := bias_step;
  q_net_init_shape := λ n k, conj (init_dense_shape k 2 128) (init_dense_shape (k + 1) 128 n);
  tx_step_shape := bias_step_shape
|}.

(** The globals under this generator and optimiser. *)
Definition State : Type := @Globals lcg bias_descent.

Definition cfg3 : Config :=
  {| N := 3; L := 10; delta_x := 1; v1 := 1 # 10; v2 := 1;
     alpha := 1 # 10; epsilon := 1 # 10; delta_t := 1 # 10; num_actions := 2 |}.

(** The same with [epsilon = 1]: every draw in [0, 1) passes the
    exploration test. *)
Definition cfg_explore : Config :=
  {| N := 3; L := 10; delta_x := 1; v1 := 1 # 10; v2 := 1;
     alpha := 1 # 10; epsilon := 1; delta_t := 1 # 10; num_actions := 2 |}.

(** Parameters outside the documented domain: [v1 >= v2], [alpha] and
    [epsilon] outside [0, 1], [delta_t <= 0]. *)
Definition cfg_invalid : Config :=
  {| N := 3; L := 10; delta_x := 1; v1 := 1; v2 := 1 # 10;
     alpha := 2; epsilon := -1; delta_t := - (1 # 10); num_actions := 2 |}.

(** No particle at all. *)
Definition cfg_empty : Config :=
  {| N := 0; L := 10; delta_x := 1; v1 := 1 # 10; v2 := 1;
     alpha := 1 # 10; epsilon := 1 # 10; delta_t := 1 # 10; num_actions := 2 |}.

(** A negative interaction range: the interval of every query is empty. *)
Definition cfg_negative_range : Config :=
  {| N := 3; L := 10; delta_x := -1; v1 := 1 # 10; v2 := 1;
     alpha := 1 # 10; epsilon := 1 # 10; delta_t := 1 # 10; num_actions := 2 |}.

(** Parameters whose estimates are [0] for keep and [1] for flip in every
    state. *)
Definition keep_cheaper : Params :=
  {| Dense_0 := {| kernel := replicate 2 (replicate 128 0%Q); bias := replicate 128 0%Q |};
     Dense_1 := {| kernel := replicate 128 (replicate 2 0%Q); bias := [0%Q; 1%Q] |} |}.

(** Three particles, the third one far from the other two. *)
Definition g3 : Globals :=
  {| key := 1; positions := [0%Q; 1%Q; 5%Q]; spins := [1; 1; -1];
     velocities := [1 # 2; 1 # 2; 1 # 2]%Q;
     state := {| step := 0; params := keep_cheaper; opt_state := (1 # 10)%Q |} |}.

Lemma g3_well_formed (cfg : Config) :
  N cfg = 3%nat → num_actions cfg = 2%nat → well_formed cfg g3.
Proof.
intros HN Hn. unfold well_formed. rewrite HN, Hn.
repeat split; try reflexivity; simpl; repeat constructor.
Qed.

End Sample.

(** * Properties *)

(** ** float32 rounding *)

Section RoundingFacts.
Local Open Scope Q_scope.

(** *** Powers of two *)

Lemma pow2_pos k : 0 < pow2 k.
Proof. apply Qpower_0_lt. reflexivity. Qed.

Lemma pow2_add a b : pow2 (a + b) == pow2 a * pow2 b.
Proof. apply Qpower_plus. discriminate. Qed.

Lemma pow2_le a b : (a <= b)%Z → pow2 a <= pow2 b.
Proof. intros Hab. apply Qpower_le_compat_l; [exact Hab|discriminate]. Qed.

Lemma pow2_lt a b : (a < b)%Z → pow2 a < pow2 b.
Proof. intros Hab. apply Qpower_lt_compat_l; [exact Hab|reflexivity]. Qed.

Lemma pow2_lt_inv a b : pow2 a < pow2 b → (a < b)%Z.
Proof. intros Hab. eapply Qpower_lt_compat_l_inv; [exact Hab|reflexivity]. Qed.

Lemma pow2_Z z : (0 <= z)%Z → pow2 z == inject_Z (2 ^ z).
Proof. intros Hz. unfold pow2. rewrite Zpower_Qpower by exact Hz. reflexivity. Qed.

Lemma pow2_div a b : pow2 a / pow2 b == pow2 (a - b).
Proof.
assert (Hb := pow2_pos b).
replace a with ((a - b) + b)%Z at 1 by lia. rewrite pow2_add.
field. intros H0. rewrite H0 in Hb. discriminate.
Qed.

(** *** The binary exponent *)

Lemma mag_spec (a : Q) : 0 < a → pow2 (mag a) <= a ∧ a < pow2 (mag a + 1).
Proof.
intros Ha. destruct a as [n d]. unfold mag. simpl Qnum. simpl Qden.
assert (Hn : (0 < n)%Z) by (revert Ha; unfold Qlt; simpl; lia).
pose proof (Z.log2_spec n Hn) as [Hn1 Hn2].
pose proof (Z.log2_spec (Z.pos d) eq_refl) as [Hd1 Hd2].
pose proof (Z.log2_nonneg n) as Hln. pose proof (Z.log2_nonneg (Z.pos d)) as Hld.
set (ln := Z.log2 n) in *. set (ld := Z.log2 (Z.pos d)) in *.
assert (Had : (n # d) * inject_Z (Z.pos d) == inject_Z n).
{ rewrite (Qmake_Qdiv n d). field. discriminate. }
assert (Hn1q : pow2 ln <= inject_Z n) by (rewrite pow2_Z, <- Zle_Qle by lia; exact Hn1).
assert (Hn2q : inject_Z n < pow2 (ln + 1)).
{ rewrite pow2_Z, <- Zlt_Qlt by lia. replace (ln + 1)%Z with (Z.succ ln) by lia. exact Hn2. }
assert (Hd1q : pow2 ld <= inject_Z (Z.pos d)) by (rewrite pow2_Z, <- Zle_Qle by lia; exact Hd1).
assert (Hd2q : inject_Z (Z.pos d) < pow2 (ld + 1)).
{ rewrite pow2_Z, <- Zlt_Qlt by lia. replace (ld + 1)%Z with (Z.succ ld) by lia. exact Hd2. }
pose proof (pow2_pos ld) as Hpld. pose proof (pow2_pos (ld + 1)) as Hpld1.
set (a := n # d) in *. set (D := inject_Z (Z.pos d)) in *. set (nq := inject_Z n) in *.
clearbody a D nq.
assert (Hup : a < pow2 (ln - ld + 1)).
{ replace (ln - ld + 1)%Z with ((ln + 1) - ld)%Z by lia. rewrite <- pow2_div.
  apply Qlt_shift_div_l; [exact Hpld|].
  set (X := pow2 (ln + 1)) in *. set (Y := pow2 ld) in *. clearbody X Y. nra. }
assert (Hlow : pow2 (ln - ld - 1) <= a).
{ replace (ln - ld - 1)%Z with (ln - (ld + 1))%Z by lia. rewrite <- pow2_div.
  apply Qle_shift_div_r; [exact Hpld1|].
  set (X := pow2 ln) in *. set (Y := pow2 (ld + 1)) in *. clearbody X Y. nra. }
destruct (Qle_bool (pow2 (ln - ld)) a) eqn:Hcmp.
- apply Qle_bool_iff in Hcmp. split; [exact Hcmp|exact Hup].
- split; [exact Hlow|].
  replace (ln - ld - 1 + 1)%Z with (ln - ld)%Z by lia.
  apply Qnot_le_lt. intros Hle. apply Qle_bool_iff in Hle. congruence.
Qed.

Lemma mag_unique (a : Q) (e : Z) : pow2 e <= a → a < pow2 (e + 1) → mag a = e.
Proof.
intros Hlo Hhi.
assert (Ha : 0 < a) by (eapply Qlt_le_trans; [apply (pow2_pos e)|exact Hlo]).
destruct (mag_spec a Ha) as [Hlo' Hhi'].
assert (mag a < e + 1)%Z by (apply pow2_lt_inv; eapply Qle_lt_trans; eauto).
assert (e < mag a + 1)%Z by (apply pow2_lt_inv; eapply Qle_lt_trans; eauto).
lia.
Qed.

Lemma mag_comp (a b : Q) : 0 < a → a == b → mag a = mag b.
Proof.
intros Ha Hab. destruct (mag_spec a Ha) as [Hlo Hhi]. symmetry.
apply mag_unique; rewrite <- Hab; assumption.
Qed.

Lemma mag_le (a b : Q) : 0 < a → a <= b → (mag a <= mag b)%Z.
Proof.
intros Ha Hab. assert (Hb : 0 < b) by (eapply Qlt_le_trans; eauto).
destruct (mag_spec a Ha) as [Hlo _]. destruct (mag_spec b Hb) as [_ Hhi].
assert (mag a < mag b + 1)%Z; [|lia].
apply pow2_lt_inv. eapply Qle_lt_trans; [exact Hlo|]. eapply Qle_lt_trans; eauto.
Qed.

(** *** Rounding to the nearest integer, ties to even *)

Lemma rne_comp (x y : Q) : x == y → rne x = rne y.
Proof. intros Hxy. unfold rne. rewrite (Qfloor_comp x y Hxy), Hxy. reflexivity. Qed.

Lemma rne_Z (z : Z) : rne (inject_Z z) = z.
Proof.
unfold rne. rewrite Qfloor_Z.
destruct (Qcompare_spec (inject_Z z - inject_Z z) (1 # 2)) as [H|H|H]; [|reflexivity|];
  exfalso; revert H; unfold Qeq, Qlt, Qminus, Qplus, Qopp; simpl; lia.
Qed.

Lemma rne_floor (x : Q) : (Qfloor x <= rne x <= Qfloor x + 1)%Z.
Proof. unfold rne. destruct (Qcompare _ _); [destruct (Z.even _)| |]; lia. Qed.

Lemma rne_mono (x y : Q) : x <= y → (rne x <= rne y)%Z.
Proof.
intros Hxy. pose proof (Qfloor_resp_le x y Hxy) as Hf.
pose proof (rne_floor x) as Hx. pose proof (rne_floor y) as Hy.
destruct (Z.eq_dec (Qfloor x) (Qfloor y)) as [Heq|Hne]; [|lia].
unfold rne. rewrite <- Heq. set (f := Qfloor x) in *.
destruct (Qcompare_spec (x - inject_Z f) (1 # 2)) as [Hx1|Hx1|Hx1];
  destruct (Qcompare_spec (y - inject_Z f) (1 # 2)) as [Hy1|Hy1|Hy1];
  try destruct (Z.even f); try lia; exfalso; lra.
Qed.

Lemma rne_nonneg (x : Q) : 0 <= x → (0 <= rne x)%Z.
Proof. intros Hx. rewrite <- (rne_Z 0). by apply rne_mono. Qed.

(** *** Rounding of non-negative rationals *)

Lemma f32_nonneg_le0 (a : Q) : a <= 0 → f32_nonneg a = 0.
Proof. intros Ha. unfold f32_nonneg. apply Qle_bool_iff in Ha. by rewrite Ha. Qed.

Lemma f32_nonneg_pos (a : Q) :
  0 < a →
  f32_nonneg a = inject_Z (rne (a / pow2 (ulp_exp a))) * pow2 (ulp_exp a).
Proof.
intros Ha. unfold f32_nonneg. destruct (Qle_bool a 0) eqn:Hle; [|reflexivity].
apply Qle_bool_iff in Hle. exfalso. lra.
Qed.

Lemma scaled_lower (a : Q) (e k : Z) : pow2 e <= a → pow2 (e - k) <= a / pow2 k.
Proof.
intros Hlo. apply Qle_shift_div_l; [apply pow2_pos|].
rewrite <- pow2_add. by replace (e - k + k)%Z with e by lia.
Qed.

Lemma scaled_upper (a : Q) (e k : Z) : a < pow2 e → a / pow2 k < pow2 (e - k).
Proof.
intros Hhi. apply Qlt_shift_div_r; [apply pow2_pos|].
rewrite <- pow2_add. by replace (e - k + k)%Z with e by lia.
Qed.

Lemma f32_nonneg_ge0 (a : Q) : 0 <= f32_nonneg a.
Proof.
destruct (Qlt_le_dec 0 a) as [Ha|Ha]; [|rewrite f32_nonneg_le0 by done; apply Qle_refl].
rewrite f32_nonneg_pos by done. set (k := ulp_exp a).
apply Qmult_le_0_compat; [|apply Qlt_le_weak, pow2_pos].
rewrite <- (Zle_Qle 0). apply rne_nonneg.
apply Qle_shift_div_l; [apply pow2_pos|]. lra.
Qed.

Lemma f32_nonneg_upper (a : Q) : 0 < a → f32_nonneg a <= pow2 (mag a + 1).
Proof.
intros Ha. destruct (mag_spec a Ha) as [_ Hhi].
rewrite f32_nonneg_pos by done. unfold ulp_exp. set (e := mag a) in *. set (k := Z.max _ _).
pose proof (scaled_upper a (e + 1) k Hhi) as Hs.
pose proof (pow2_pos k) as Hk.
destruct (Z_le_gt_dec 0 (e + 1 - k)) as [Ht|Ht].
- rewrite (pow2_Z (e + 1 - k)) in Hs by done.
  assert (Hr : (rne (a / pow2 k) <= 2 ^ (e + 1 - k))%Z).
  { rewrite <- (rne_Z (2 ^ (e + 1 - k))). apply rne_mono. by apply Qlt_le_weak. }
  assert (Hp : pow2 (e + 1) == inject_Z (2 ^ (e + 1 - k)) * pow2 k).
  { rewrite <- (pow2_Z (e + 1 - k)), <- pow2_add by done.
    by replace (e + 1 - k + k)%Z with (e + 1)%Z by lia. }
  rewrite Hp.
  apply Qmult_le_compat_r; [|by apply Qlt_le_weak]. by rewrite <- Zle_Qle.
- assert (Hr : (rne (a / pow2 k) <= 0)%Z).
  { change 0%Z with (rne (1 # 2)). apply rne_mono. apply Qlt_le_weak.
    eapply Qlt_le_trans; [exact Hs|]. change (1 # 2) with (pow2 (-1)). apply pow2_le. lia. }
  apply Qle_trans with 0; [|apply Qlt_le_weak, pow2_pos].
  rewrite <- (Qmult_0_l (pow2 k)). apply Qmult_le_compat_r; [|by apply Qlt_le_weak].
  by rewrite <- (Zle_Qle _ 0).
Qed.

Lemma f32_nonneg_lower (a : Q) :
  0 < a → (-149 <= mag a)%Z → pow2 (mag a) <= f32_nonneg a.
Proof.
intros Ha He. destruct (mag_spec a Ha) as [Hlo _].
rewrite f32_nonneg_pos by done. unfold ulp_exp. set (e := mag a) in *. set (k := Z.max _ _).
assert (Hke : (0 <= e - k)%Z) by lia.
pose proof (scaled_lower a e k Hlo) as Hs. rewrite (pow2_Z (e - k)) in Hs by done.
assert (Hr : (2 ^ (e - k) <= rne (a / pow2 k))%Z).
{ rewrite <- (rne_Z (2 ^ (e - k))). by apply rne_mono. }
assert (Hp : pow2 e == inject_Z (2 ^ (e - k)) * pow2 k).
{ rewrite <- (pow2_Z (e - k)), <- pow2_add by done.
  by replace (e - k + k)%Z with e by lia. }
rewrite Hp.
apply Qmult_le_compat_r; [|apply Qlt_le_weak, pow2_pos]. by rewrite <- Zle_Qle.
Qed.

Lemma f32_nonneg_comp (a b : Q) : a == b → f32_nonneg a == f32_nonneg b.
Proof.
intros Hab. destruct (Qlt_le_dec 0 a) as [Ha|Ha].
- rewrite !f32_nonneg_pos by lra. unfold ulp_exp. rewrite <- (mag_comp a b Ha Hab).
  set (k := Z.max _ _). by rewrite (rne_comp (a / pow2 k) (b / pow2 k)) by (by rewrite Hab).
- rewrite !f32_nonneg_le0 by lra. reflexivity.
Qed.

Lemma f32_nonneg_mono (a b : Q) : a <= b → f32_nonneg a <= f32_nonneg b.
Proof.
intros Hab. destruct (Qlt_le_dec 0 a) as [Ha|Ha];
  [|rewrite (f32_nonneg_le0 a) by done; apply f32_nonneg_ge0].
assert (Hb : 0 < b) by lra.
pose proof (mag_le a b Ha Hab) as He.
destruct (Z.eq_dec (ulp_exp a) (ulp_exp b)) as [Hk|Hk].
- rewrite !f32_nonneg_pos by done. rewrite <- Hk. set (k := ulp_exp a).
  apply Qmult_le_compat_r; [|apply Qlt_le_weak, pow2_pos].
  rewrite <- Zle_Qle. apply rne_mono.
  apply Qmult_le_compat_r; [done|]. apply Qlt_le_weak, Qinv_lt_0_compat, pow2_pos.
- apply Qle_trans with (pow2 (mag a + 1)); [by apply f32_nonneg_upper|].
  unfold ulp_exp in Hk.
  apply Qle_trans with (pow2 (mag b)); [apply pow2_le; lia|].
  apply f32_nonneg_lower; [done|lia].
Qed.

Lemma f32_nonneg_tiny (a : Q) :
  0 < a → (mag a + 1 < ulp_exp a)%Z → f32_nonneg a == 0.
Proof.
intros Ha Ht. destruct (mag_spec a Ha) as [_ Hhi].
rewrite f32_nonneg_pos by done. set (k := ulp_exp a) in *.
pose proof (scaled_upper a (mag a + 1) k Hhi) as Hs.
assert (Hr : rne (a / pow2 k) = 0%Z).
{ apply Z.le_antisymm.
  - change 0%Z with (rne (1 # 2)). apply rne_mono, Qlt_le_weak.
    eapply Qlt_le_trans; [exact Hs|]. change (1 # 2) with (pow2 (-1)). apply pow2_le. lia.
  - apply rne_nonneg. apply Qle_shift_div_l; [apply pow2_pos|]. lra. }
rewrite Hr. apply Qmult_0_l.
Qed.

(** A value that sits on the grid of its own binade is kept. *)
Lemma f32_nonneg_fix (a : Q) (z : Z) :
  0 < a → a / pow2 (ulp_exp a) == inject_Z z → f32_nonneg a == a.
Proof.
intros Ha Hz. rewrite f32_nonneg_pos by done.
rewrite (rne_comp _ _ Hz), rne_Z, <- Hz. field.
intros H0. pose proof (pow2_pos (ulp_exp a)) as Hp. rewrite H0 in Hp. discriminate.
Qed.

Lemma f32_nonneg_idem (a : Q) : f32_nonneg (f32_nonneg a) == f32_nonneg a.
Proof.
destruct (Qlt_le_dec 0 a) as [Ha|Ha];
  [|rewrite (f32_nonneg_le0 a) by done; rewrite f32_nonneg_le0 by apply Qle_refl; reflexivity].
pose proof (f32_nonneg_ge0 a) as Hy0.
destruct (Qlt_le_dec 0 (f32_nonneg a)) as [Hy|Hy];
  [|rewrite (f32_nonneg_le0 (f32_nonneg a)) by done; lra].
pose proof (f32_nonneg_upper a Ha) as Hup.
assert (Hk : (ulp_exp a <= mag a + 1)%Z).
{ destruct (Z_le_gt_dec (ulp_exp a) (mag a + 1)) as [?|Hgt]; [done|].
  rewrite (f32_nonneg_tiny a Ha) in Hy by lia. discriminate. }
set (y := f32_nonneg a) in *. set (e := mag a) in *. set (k := ulp_exp a) in *.
assert (Hyk : y == inject_Z (rne (a / pow2 k)) * pow2 k).
{ unfold y. rewrite f32_nonneg_pos by done. reflexivity. }
destruct (mag_spec y Hy) as [Hlo' Hhi'].
destruct (Qle_lt_or_eq _ _ Hup) as [Hlt|Heq].
- (* below the next power of two: the grid of y is at least as fine *)
  assert (He' : (mag y <= e)%Z).
  { assert (mag y < e + 1)%Z; [|lia]. apply pow2_lt_inv. lra. }
  assert (Hk' : (0 <= k - ulp_exp y)%Z) by (unfold k, ulp_exp; fold e; lia).
  apply (f32_nonneg_fix y (rne (a / pow2 k) * 2 ^ (k - ulp_exp y)) Hy).
  set (k' := ulp_exp y) in *. clearbody k'.
  rewrite Hyk, inject_Z_mult, <- (pow2_Z (k - k')), <- (pow2_div k k') by done.
  field. intros H0. pose proof (pow2_pos k') as Hp. rewrite H0 in Hp. discriminate.
- (* the next power of two itself *)
  assert (He' : mag y = (e + 1)%Z).
  { apply mag_unique; [lra|]. rewrite Heq. apply pow2_lt. lia. }
  assert (Hk' : (0 <= e + 1 - ulp_exp y)%Z).
  { unfold ulp_exp. rewrite He'. unfold k, ulp_exp in Hk. fold e in Hk. lia. }
  apply (f32_nonneg_fix y (2 ^ (e + 1 - ulp_exp y)) Hy).
  set (k' := ulp_exp y) in *. clearbody k'.
  rewrite <- (pow2_Z (e + 1 - k')), <- (pow2_div (e + 1) k') by done.
  rewrite Heq. reflexivity.
Qed.

(** *** Rounding to float32 *)

Lemma f32_comp (x y : Q) : x == y → f32 x = f32 y.
Proof. intros Hxy. unfold f32. by rewrite (Qred_complete x y Hxy). Qed.

Lemma f32_of_nonneg (q : Q) : 0 <= q → f32 q == f32_nonneg q.
Proof.
intros Hq. unfold f32. rewrite Qred_correct.
assert (Hle : Qle_bool 0 (Qred q) = true) by (apply Qle_bool_iff; by rewrite Qred_correct).
rewrite Hle. apply f32_nonneg_comp, Qred_correct.
Qed.

Lemma f32_of_neg (q : Q) : q < 0 → f32 q == - f32_nonneg (- q).
Proof.
intros Hq. unfold f32. rewrite Qred_correct.
destruct (Qle_bool 0 (Qred q)) eqn:Hle.
- apply Qle_bool_iff in Hle. rewrite Qred_correct in Hle. lra.
- apply Qopp_comp, f32_nonneg_comp, Qopp_comp, Qred_correct.
Qed.

Lemma f32_canon (x y : Q) : f32 x == f32 y → f32 x = f32 y.
Proof.
intros Hxy. apply Qred_complete in Hxy. unfold f32 in *.
by rewrite !Qred_involutive in Hxy.
Qed.

Lemma f32_sign (q : Q) : (0 <= q → 0 <= f32 q) ∧ (q <= 0 → f32 q <= 0).
Proof.
split; intros Hq.
- rewrite f32_of_nonneg by done. apply f32_nonneg_ge0.
- destruct (Qlt_le_dec q 0) as [Hlt|Hge].
  + rewrite f32_of_neg by done. pose proof (f32_nonneg_ge0 (- q)). lra.
  + rewrite f32_of_nonneg by done. rewrite f32_nonneg_le0 by done. apply Qle_refl.
Qed.

(** Rounding keeps the order. *)
Lemma f32_mono (x y : Q) : x <= y → f32 x <= f32 y.
Proof.
intros Hxy. destruct (Qlt_le_dec x 0) as [Hx|Hx], (Qlt_le_dec y 0) as [Hy|Hy].
- rewrite (f32_of_neg x), (f32_of_neg y) by done.
  apply Qopp_le_compat, f32_nonneg_mono. lra.
- apply Qle_trans with 0; [apply f32_sign; lra|by apply f32_sign].
- lra.
- rewrite (f32_of_nonneg x), (f32_of_nonneg y) by done. by apply f32_nonneg_mono.
Qed.

(** A float32 value is its own rounding. *)
Lemma f32_idem (q : Q) : f32 (f32 q) = f32 q.
Proof.
apply f32_canon. destruct (Qlt_le_dec q 0) as [Hq|Hq].
- pose proof (f32_nonneg_ge0 (- q)) as Hn.
  destruct (Qlt_le_dec 0 (f32_nonneg (- q))) as [Hpos|Hzero].
  + assert (Hlt : f32 q < 0) by (rewrite f32_of_neg by done; lra).
    rewrite (f32_of_neg (f32 q) Hlt).
    rewrite (f32_nonneg_comp (- f32 q) (f32_nonneg (- q)))
      by (rewrite f32_of_neg by done; ring).
    rewrite f32_nonneg_idem. by rewrite f32_of_neg.
  + assert (Hz : f32 q == 0) by (rewrite f32_of_neg by done; lra).
    rewrite (f32_comp _ _ Hz), Hz. reflexivity.
- pose proof (proj1 (f32_sign q) Hq) as Hge.
  rewrite (f32_of_nonneg (f32 q) Hge).
  rewrite (f32_nonneg_comp (f32 q) (f32_nonneg q)) by (by apply f32_of_nonneg).
  rewrite f32_nonneg_idem. by rewrite f32_of_nonneg.
Qed.

(** Rounding commutes with negation. *)
Lemma f32_opp (q : Q) : f32 (- q) == - f32 q.
Proof.
destruct (Qlt_le_dec q 0) as [Hq|Hq].
- rewrite (f32_of_nonneg (- q)), (f32_of_neg q) by lra. ring.
- destruct (Qlt_le_dec 0 q) as [Hpos|Hzero].
  + rewrite (f32_of_neg (- q)), (f32_of_nonneg q) by lra.
    apply Qopp_comp, f32_nonneg_comp. ring.
  + assert (Hz : q == 0) by lra.
    rewrite (f32_comp (- q) 0), (f32_comp q 0) by (rewrite ?Hz; reflexivity).
    reflexivity.
Qed.

(** Rounding never moves a value across a float32 one. *)
Lemma f32_le_float (x q : Q) : x <= f32 q → f32 x <= f32 q.
Proof. intros Hx. rewrite <- (f32_idem q). by apply f32_mono. Qed.

Lemma f32_ge_float (x q : Q) : f32 q <= x → f32 q <= f32 x.
Proof. intros Hx. rewrite <- (f32_idem q). by apply f32_mono. Qed.

End RoundingFacts.

(** The float32 values the reference run prints and stores: the mean
    [-0.6000000238418579] of ten spins with sum [-6], and [0.1]. *)
Example f32_reference_values :
  f32 (- (6 # 10)) = (-5033165 # 8388608)%Q ∧ f32 (1 # 10) = (13421773 # 134217728)%Q.
Proof. split; reflexivity. Qed.

(** ** Arrays *)

Lemma at_index_lt {A} (a : list A) i : (i < length a)%nat → at_index a i = a !! i.
Proof. intros Hi. unfold at_index. f_equal. lia. Qed.

Lemma at_index_is_Some {A} (a : list A) i : a ≠ [] → is_Some (at_index a i).
Proof.
  intros Ha. unfold at_index. apply lookup_lt_is_Some.
  destruct a; [done|]. simpl. lia.
Qed.

Lemma at_index_elem_of {A} (a : list A) i x : at_index a i = Some x → x ∈ a.
Proof. unfold at_index. intros Hx. apply list_elem_of_lookup. eauto. Qed.

Lemma at_index_nil {A} (i : nat) : at_index (@nil A) i = None.
Proof. done. Qed.

Lemma mask_select_is_Some {A} (a : list A) mask :
  length a = length mask → is_Some (mask_select a mask).
Proof.
  revert mask. induction a as [|x a IH]; intros [|b mask] Hlen; simplify_eq/=; [done|].
  destruct (IH mask) as [r ->]; [done|]. simpl. eauto.
Qed.

Lemma mask_select_Some_length {A} (a : list A) mask r :
  mask_select a mask = Some r → length a = length mask.
Proof.
  revert mask r. induction a as [|x a IH]; intros [|b mask] r Hr; simplify_eq/=; [done|].
  destruct (mask_select a mask) as [r'|] eqn:Hr'; simplify_eq/=.
  f_equal. eauto.
Qed.

(** The selected elements are those at the indices where the mask holds,
    each once and in increasing order of index. *)
Lemma mask_select_indices {A} (a : list A) mask r :
  mask_select a mask = Some r →
  ∃ js : list nat,
    r = omap (λ j, a !! j) js ∧ length r = length js ∧
    StronglySorted lt js ∧ ∀ j, j ∈ js ↔ mask !! j = Some true.
Proof.
  revert mask r. induction a as [|x a IH]; intros [|b mask] r Hr; simplify_eq/=.
  { exists []. repeat split; try constructor; [by intros ?%elem_of_nil|done]. }
  destruct (mask_select a mask) as [r'|] eqn:Hr'; simplify_eq/=.
  destruct (IH _ _ Hr') as (js & -> & Hlen & Hsort & Hmem).
  assert (Hshift : omap (λ j, (x :: a) !! j) (S <$> js) = omap (λ j, a !! j) js).
  { clear. induction js as [|j js IHjs]; [done|].
    rewrite fmap_cons. cbn [omap list_omap]. by rewrite IHjs. }
  assert (HsortS : StronglySorted lt (S <$> js)).
  { clear -Hsort. induction Hsort as [|j js Hs IHs Hall]; simpl; constructor; [done|].
    apply Forall_fmap. eapply Forall_impl; [exact Hall|]. simpl. lia. }
  assert (HmemS : ∀ j, j ∈ S <$> js ↔ ∃ j', j = S j' ∧ mask !! j' = Some true).
  { intros j. rewrite list_elem_of_fmap. split; intros (j' & -> & Hj'); exists j'; split; try done;
      by apply Hmem. }
  destruct b.
  - exists (0%nat :: (S <$> js)). repeat split.
    + change (omap _ (0%nat :: _)) with (x :: omap (λ j, (x :: a) !! j) (S <$> js)).
      by rewrite Hshift.
    + simpl. by rewrite Hlen, length_fmap.
    + constructor; [done|]. apply Forall_fmap, Forall_forall. intros; simpl; lia.
    + rewrite elem_of_cons, HmemS. intros [->|(j' & -> & Hj')]; done.
    + rewrite elem_of_cons, HmemS. destruct j as [|j']; [by left|]. simpl. intros Hj'. right. eauto.
  - exists (S <$> js). rewrite Hshift. repeat split.
    + by rewrite Hlen, length_fmap.
    + done.
    + rewrite HmemS. intros (j' & -> & Hj'); done.
    + rewrite HmemS. destruct j as [|j']; [done|]. simpl. eauto.
Qed.

Lemma argmin_is_Some (a : list Q) : a ≠ [] → is_Some (argmin a).
Proof. destruct a; [done|]. simpl. eauto. Qed.

(** ** The Q-network keeps its output shape *)

Lemma Dense_length n_in n_out d x :
  dense_shape n_in n_out d → length (Dense d x) = n_out.
Proof.
  intros (_ & Hrows & Hb). unfold Dense.
  assert (Hin : Forall (λ xr : Q * list Q, length xr.2 = n_out) (zip x (kernel d))).
  { apply Forall_forall. intros [v row] Hin. apply elem_of_zip_r in Hin.
    rewrite Forall_forall in Hrows. by apply Hrows. }
  induction Hin as [|[v row] l Hrow _ IH]; simpl; [done|].
  rewrite length_zip_with, length_map, IH. simpl in Hrow. lia.
Qed.

Lemma QNetwork_length n p x : well_shaped n p → length (QNetwork p x) = n.
Proof. intros [_ H1]. unfold QNetwork. by eapply Dense_length. Qed.

(** ** Neighbor query *)

Lemma in_range_mask (left right : Q) (positions : list Q) j :
  map (λ x, Qle_bool left x && Qle_bool x right) positions !! j = Some true
  ↔ ∃ x, positions !! j = Some x ∧ (left <= x)%Q ∧ (x <= right)%Q.
Proof.
  rewrite list_lookup_fmap. destruct (positions !! j) as [x|]; simpl.
  - split.
    + intros [= [Hl Hr]%andb_prop]. apply Qle_bool_iff in Hl, Hr. eauto.
    + intros (x' & [= <-] & Hl & Hr). apply Qle_bool_iff in Hl, Hr. by rewrite Hl, Hr.
  - split; [done|]. by intros (? & ? & _).
Qed.

Lemma at_index_fmap {A B} (f : A → B) (a : list A) i :
  at_index (f <$> a) i = f <$> at_index a i.
Proof. unfold at_index. by rewrite length_fmap, list_lookup_fmap. Qed.

Lemma f32_array_id (a : list Q) : Forall (λ x, f32 x = x) a → f32 <$> a = a.
Proof. induction 1 as [|x a Hx _ IH]; [done|]. rewrite fmap_cons. by rewrite Hx, IH. Qed.

(** A float32 position lies between its own two rounded endpoints. *)
Lemma f32_interval_self (p d : Q) :
  (0 <= d)%Q →
  (f32 (f32 p - f32 d) <= f32 p)%Q ∧ (f32 p <= f32 (f32 p + f32 d))%Q.
Proof.
intros Hd. pose proof (proj1 (f32_sign d) Hd) as Hfd. split.
- apply f32_le_float. lra.
- apply f32_ge_float. lra.
Qed.

(** C3 (amended): for a float32 array of positions and particle [i] at
    position [p], [get_neighbors] returns the spins of exactly the particles
    [j] with [left <= positions[j] <= right] (both ends included), once each
    and in index order, where [left] and [right] are the float32 values of
    [p - delta_x] and [p + delta_x] that the program computes; particle [i]
    itself is among them when [delta_x] is not negative; the length [L] of
    the system plays no role (no wraparound); the arrays are only read. *)
Theorem get_neighbors_rounded_interval (cfg : Config) (i : nat)
    (positions : list Q) (spins : list Z) (p : Q) :
  length positions = length spins →
  Forall (λ x, f32 x = x) positions →
  at_index positions i = Some p →
  ∃ js : list nat,
    get_neighbors cfg i positions spins = Some (omap (λ j, spins !! j) js)
    ∧ length (omap (λ j, spins !! j) js) = length js
    ∧ StronglySorted lt js
    ∧ (∀ j, j ∈ js ↔
         ∃ x, positions !! j = Some x
              ∧ (f32 (p - f32 (delta_x cfg)) <= x)%Q ∧ (x <= f32 (p + f32 (delta_x cfg)))%Q)
    ∧ ((0 <= delta_x cfg)%Q → (i < length positions)%nat → i ∈ js)
    ∧ (∀ cfg', delta_x cfg' = delta_x cfg →
         get_neighbors cfg' i positions spins = get_neighbors cfg i positions spins).
Proof.
intros Hlen Hfloat Hp. unfold get_neighbors.
rewrite (f32_array_id positions Hfloat), Hp. cbn [mbind option_bind].
set (mask := map _ positions).
destruct (mask_select_is_Some spins mask) as [r Hr].
{ unfold mask. by rewrite length_map. }
destruct (mask_select_indices _ _ _ Hr) as (js & -> & Hjs & Hsort & Hmem).
exists js. split; [done|]. split; [done|]. split; [done|].
assert (Hiff : ∀ j, j ∈ js ↔
   ∃ x, positions !! j = Some x
        ∧ (f32 (p - f32 (delta_x cfg)) <= x)%Q ∧ (x <= f32 (p + f32 (delta_x cfg)))%Q).
{ intros j. rewrite Hmem. apply in_range_mask. }
split; [exact Hiff|]. split.
- intros Hdx Hi. apply Hiff. exists p. rewrite at_index_lt in Hp by done.
  split; [done|].
  assert (Hpf : f32 p = p).
  { rewrite Forall_forall in Hfloat. apply Hfloat. apply list_elem_of_lookup. eauto. }
  destruct (f32_interval_self p (delta_x cfg) Hdx) as [Hl Hr']. rewrite Hpf in Hl, Hr'. done.
- intros cfg' Hdx. by rewrite Hdx.
Qed.

Lemma get_neighbors_rounded_interval_witness :
  ∃ js : list nat,
    get_neighbors Sample.cfg3 1 [0; 1; 2]%Q [1; 1; -1] = Some (omap (λ j, [1; 1; -1] !! j) js)
    ∧ length (omap (λ j, [1; 1; -1] !! j) js) = length js
    ∧ StronglySorted lt js
    ∧ (∀ j, j ∈ js ↔
         ∃ x, [0; 1; 2]%Q !! j = Some x
              ∧ (f32 (1 - f32 (delta_x Sample.cfg3)) <= x)%Q
              ∧ (x <= f32 (1 + f32 (delta_x Sample.cfg3)))%Q)
    ∧ ((0 <= delta_x Sample.cfg3)%Q → (1 < length [0; 1; 2]%Q)%nat → 1%nat ∈ js)
    ∧ (∀ cfg', delta_x cfg' = delta_x Sample.cfg3 →
         get_neighbors cfg' 1 [0; 1; 2]%Q [1; 1; -1]
         = get_neighbors Sample.cfg3 1 [0; 1; 2]%Q [1; 1; -1]).
Proof.
apply (get_neighbors_rounded_interval Sample.cfg3 1 [0; 1; 2]%Q [1; 1; -1] 1%Q).
- reflexivity.
- repeat first [apply List.Forall_nil|apply List.Forall_cons; [reflexivity|]].
- reflexivity.
Defined.

(** C3 as stated fails: with [delta_x = 1] and the float32 positions
    [0.1f = 13421773 / 2^27] and [1.1f = 9227469 / 2^23], the sum
    [0.1f + 1] rounds up to [1.1f], so the query for particle 0 returns
    both spins although [1.1f] lies outside the exact interval
    [[0.1f - 1, 0.1f + 1]]. *)
Lemma get_neighbors_exact_interval_fails :
  f32 (13421773 # 134217728) = (13421773 # 134217728)%Q
  ∧ f32 (9227469 # 8388608) = (9227469 # 8388608)%Q
  ∧ get_neighbors Sample.cfg3 0 [13421773 # 134217728; 9227469 # 8388608]%Q [1; -1]
    = Some [1; -1]
  ∧ ¬ (9227469 # 8388608 <= (13421773 # 134217728) + delta_x Sample.cfg3)%Q.
Proof.
split; [reflexivity|]. split; [reflexivity|]. split; [reflexivity|].
unfold Qle. simpl. lia.
Qed.

(** Both ends of the interval count: the particles at distance exactly
    [delta_x = 1] on either side are neighbors. *)
Example get_neighbors_boundary :
  get_neighbors Sample.cfg3 1 [0; 1; 2]%Q [1; 1; -1] = Some [1; 1; -1].
Proof. reflexivity. Qed.

(** The isolated third particle has itself as its only neighbor. *)
Example get_neighbors_alone :
  get_neighbors Sample.cfg3 2 [0; 1 # 2; 5]%Q [1; 1; -1] = Some [-1].
Proof. reflexivity. Qed.

(** On a ring of length [L = 10] the particles at 1/2 and 39/4 would be
    3/4 apart; the query does not wrap and keeps them apart. *)
Example get_neighbors_no_wraparound :
  get_neighbors Sample.cfg3 0 [1 # 2; 39 # 4]%Q [1; -1] = Some [1].
Proof. reflexivity. Qed.

(** ** Action selection *)

Lemma Qlt_bool_iff (x y : Q) : Qlt_bool x y = true ↔ (x < y)%Q.
Proof.
  unfold Qlt_bool. rewrite negb_true_iff, <- not_true_iff_false, Qle_bool_iff.
  split; [apply Qnot_le_lt|apply Qlt_not_le].
Qed.

(** [argmin] returns the first index that holds the least value. *)
Lemma argmin_from_spec (a : list Q) (best : Q) (besti i : nat) :
  let k := argmin_from best besti i a in
  (k = besti ∧ Forall (λ y, (best <= y)%Q) a)
  ∨ (∃ x, a !! (k - i)%nat = Some x ∧ (i <= k)%nat ∧ (x < best)%Q
          ∧ Forall (λ y, (x <= y)%Q) a
          ∧ ∀ j y, (j < k - i)%nat → a !! j = Some y → (x < y)%Q).
Proof.
  revert best besti i. induction a as [|x a IH]; intros best besti i; simpl.
  { left. by split. }
  destruct (Qlt_bool x best) eqn:Hx.
  - apply Qlt_bool_iff in Hx. right.
    destruct (IH x i (S i)) as [[-> Hall]|(x' & Hk & Hik & Hlt & Hall & Hfirst)].
    + exists x. rewrite Nat.sub_diag. repeat split; try done.
      * constructor; [apply Qle_refl|done].
      * intros j y Hj. lia.
    + set (k := argmin_from x i (S i) a) in *.
      exists x'. replace (k - i)%nat with (S (k - S i)) by lia. repeat split; try done.
      * lia.
      * by eapply Qlt_trans.
      * constructor; [by apply Qlt_le_weak|done].
      * intros [|j] y Hj Hy; simplify_eq/=; [done|]. apply (Hfirst j); [lia|done].
  - assert (Hbx : (best <= x)%Q).
    { apply Qnot_lt_le. intros Hlt%Qlt_bool_iff. congruence. }
    destruct (IH best besti (S i)) as [[-> Hall]|(x' & Hk & Hik & Hlt & Hall & Hfirst)].
    + left. split; [done|]. by constructor.
    + set (k := argmin_from best besti (S i) a) in *. right.
      exists x'. replace (k - i)%nat with (S (k - S i)) by lia. repeat split; try done.
      * lia.
      * constructor; [|done]. apply Qlt_le_weak. by eapply Qlt_le_trans.
      * intros [|j] y Hj Hy; simplify_eq/=; [by eapply Qlt_le_trans|].
        apply (Hfirst j); [lia|done].
Qed.

Lemma argmin_least (a : list Q) (k : nat) :
  argmin a = Some k →
  ∃ x, a !! k = Some x ∧ Forall (λ y, (x <= y)%Q) a
       ∧ ∀ j y, (j < k)%nat → a !! j = Some y → (x < y)%Q.
Proof.
  destruct a as [|x0 a]; [done|]. simpl. intros [= <-].
  destruct (argmin_from_spec a x0 0 1) as [[-> Hall]|(x & Hk & Hik & Hlt & Hall & Hfirst)].
  - exists x0. repeat split; [|intros; lia]. constructor; [apply Qle_refl|done].
  - set (k := argmin_from x0 0 1 a) in *. exists x.
    destruct k as [|k]; [lia|]. simpl in *. rewrite Nat.sub_0_r in *. repeat split; [done| |].
    + constructor; [by apply Qlt_le_weak|done].
    + intros [|j] y Hj Hy; simplify_eq/=; [done|]. apply (Hfirst j); [lia|done].
Qed.

Section ActionSelection.
Context `{Optimiser}.
Variable cfg : Config.

(** When the exploration test fails, [update_spin] applies the action of
    least estimated cost (the first one among equals): keep for action 0,
    flip otherwise. *)
Lemma update_spin_exploit_argmin (g : Globals) i (spins : list Z) Qs eps s nb action :
  Qlt_bool (unit_uniform (key g)) eps = false →
  at_index spins i = Some s →
  get_neighbors cfg i (positions g) spins = Some nb →
  argmin (apply_fn Qs (inject_Z <$> [s; Z.sgn (sum nb)])) = Some action →
  update_spin cfg g i spins Qs eps = Some (if (action =? 0)%nat then s else - s)
  ∧ ∃ x, apply_fn Qs (inject_Z <$> [s; Z.sgn (sum nb)]) !! action = Some x
         ∧ Forall (λ y, (x <= y)%Q) (apply_fn Qs (inject_Z <$> [s; Z.sgn (sum nb)])).
Proof using Type.
  intros Htest Hs Hnb Ha. split.
  - unfold update_spin. rewrite Htest, Hs. cbn [mbind option_bind].
    rewrite Hnb. cbn [mbind option_bind]. by rewrite Ha.
  - destruct (argmin_least _ _ Ha) as (x & Hx & Hall & _). eauto.
Qed.

(** C1 (the code departs from the claim): whenever the exploration test
    [uniform(key) < epsilon] succeeds, [update_spin] returns the flipped
    spin.  The exploring action is flip every time and never keep; it is
    not a uniform choice between the two actions. *)
Theorem update_spin_exploration_always_flips (g : Globals) (i : nat) (spins : list Z)
    (Qs : TrainState) (eps : Q) (s : Z) :
  Qlt_bool (unit_uniform (key g)) eps = true →
  at_index spins i = Some s →
  update_spin cfg g i spins Qs eps = Some (- s)
  ∧ (s = 1 ∨ s = -1 → update_spin cfg g i spins Qs eps ≠ Some s).
Proof using Type.
  intros Htest Hs. unfold update_spin. rewrite Htest, Hs. simpl.
  split; [done|]. intros [->| ->]; done.
Qed.

(** ** Cost signal *)

(** C4: the cost is 1 when particle [i] has strictly fewer neighbors
    after its candidate spin and candidate position are put in place than
    before, and 0 otherwise; the candidate position is
    [positions[i] + velocities[i] * spins[i] * delta_t] (each operation
    rounded to float32, as the source computes it) with the spin [s] read
    from the array as it was passed, not the candidate [new_spin]. *)
Theorem cost_function_counts_lost_neighbors (g : Globals) (i : nat)
    (positions : list Q) (spins : list Z) (new_spin s : Z) (p v : Q)
    (before after : list Z) :
  update_spin cfg g i spins (state g) (epsilon cfg) = Some new_spin →
  at_index positions i = Some p →
  at_index (velocities g) i = Some v →
  at_index spins i = Some s →
  get_neighbors cfg i positions spins = Some before →
  get_neighbors cfg i
    (<[i:=f32 (p + f32 (f32 (v * inject_Z s) * f32 (delta_t cfg)))]> positions)
    (<[i:=new_spin]> spins) = Some after →
  cost_function cfg g i positions spins
  = Some (if (length after <? length before)%nat then 1 else 0).
Proof using Type.
  intros Hspin Hp Hv Hs Hbefore Hafter. unfold cost_function, update_position.
  rewrite Hbefore. cbn [mbind option_bind]. rewrite Hspin. cbn [mbind option_bind].
  rewrite Hp. cbn [mbind option_bind]. rewrite Hv. cbn [mbind option_bind].
  rewrite Hs. cbn [mbind option_bind]. by rewrite Hafter.
Qed.

End ActionSelection.

Lemma update_spin_exploration_always_flips_witness :
  update_spin Sample.cfg3 Sample.g3 1 [1; 1; -1] (state Sample.g3) 1 = Some (- 1)
  ∧ (1 = 1 ∨ 1 = -1 → update_spin Sample.cfg3 Sample.g3 1 [1; 1; -1] (state Sample.g3) 1 ≠ Some 1).
Proof.
  apply (update_spin_exploration_always_flips Sample.cfg3 Sample.g3 1 [1; 1; -1]
           (state Sample.g3) 1%Q 1); reflexivity.
Defined.

Lemma cost_function_counts_lost_neighbors_witness :
  cost_function Sample.cfg3 Sample.g3 1 [0; 1; 5]%Q [1; 1; -1] = Some 1.
Proof.
  apply (cost_function_counts_lost_neighbors Sample.cfg3 Sample.g3 1 [0; 1; 5]%Q [1; 1; -1]
           1 1 1%Q (1 # 2)%Q [1; 1] [1]); reflexivity.
Defined.

(** The cost of the isolated third particle is computed from the neighbor
    set that holds only itself: no neighbor can be lost. *)
Example cost_function_alone :
  cost_function Sample.cfg3 Sample.g3 2 [0; 1 # 2; 5]%Q [1; 1; -1] = Some 0.
Proof. reflexivity. Qed.

(** ** Q-function update *)

Section QUpdate.
Context `{Optimiser}.
Variable cfg : Config.

(** [update_Q] takes no action from its caller: the estimate it replaces
    in the target is the one of the least current estimate, and the
    target agrees with the current estimates everywhere else. *)
Lemma update_Q_target_argmin (g : Globals) i (st : TrainState) cost x a t :
  update_Q_target cfg g i st cost = Some (x, a, t) →
  argmin (apply_fn st x) = Some a
  ∧ t = <[a:=inject_Z cost]> (apply_fn st x)
  ∧ ∀ j, j ≠ a → t !! j = apply_fn st x !! j.
Proof using Type.
  unfold update_Q_target. intros Ht.
  destruct (at_index (spins g) i) as [s|]; [|done]. cbn [mbind option_bind] in Ht.
  destruct (get_neighbors _ _ _ _) as [nb|]; [|done]. cbn [mbind option_bind] in Ht.
  destruct (argmin _) as [a'|] eqn:Ha; [|done]. cbn [mbind option_bind] in Ht.
  injection Ht as <- <- <-. split; [done|]. split; [done|].
  intros j Hj. by rewrite list_lookup_insert_ne.
Qed.

End QUpdate.

(** C2 (the code departs from the claim): at a state where the exploration
    test succeeds and keep has the least estimate, the cost computation of
    particle 1 chooses flip (the candidate spin is [-1] for the spin [1]),
    yet [update_Q] puts the observed cost [1] in the target of action 0
    (keep) and leaves the target of flip at its current estimate; with the
    sample optimiser the estimates go from [0, 1] to [1/10, 1]: the estimate
    of keep moved, the one of the chosen action did not. *)
Theorem update_Q_adjusts_least_estimate_not_chosen_action :
  at_index (spins Sample.g3) 1 = Some 1
  ∧ update_spin Sample.cfg_explore Sample.g3 1 (spins Sample.g3) (state Sample.g3)
      (epsilon Sample.cfg_explore) = Some (-1)
  ∧ cost_function Sample.cfg_explore Sample.g3 1 (positions Sample.g3) (spins Sample.g3)
    = Some 1
  ∧ apply_fn (state Sample.g3) [1; 1]%Q = [0; 1]%Q
  ∧ update_Q_target Sample.cfg_explore Sample.g3 1 (state Sample.g3) 1
    = Some ([1; 1]%Q, 0%nat, [1; 1]%Q)
  ∧ (st ← update_Q Sample.cfg_explore Sample.g3 1 (state Sample.g3) 1;
     Some (apply_fn st [1; 1]%Q)) = Some [1 # 10; 1]%Q.
Proof. repeat split; vm_compute; reflexivity. Qed.

(** ** The simulation loop *)

(** Case analysis on the first call of a sequence of fallible calls. *)
Ltac case_bind H x Hx :=
  match type of H with
  | mbind _ ?m = Some _ =>
      destruct m as [x|] eqn:Hx; cbn [mbind option_bind] in H; [|discriminate H]
  end.

Section Loop.
Context `{Optimiser}.
Variable cfg : Config.

(** What one pass of the loop body assigns. *)
Lemma particle_update_Some (g g' : Globals) (i : nat) :
  particle_update cfg g i = Some g' →
  ∃ cost st s p,
    cost_function cfg g i (positions g) (spins g) = Some cost
    ∧ update_Q cfg g i (state g) cost = Some st
    ∧ update_spin cfg (set_state g st) i (spins g) st (epsilon cfg) = Some s
    ∧ update_position cfg i (positions g) (<[i:=s]> (spins g)) (velocities g) = Some p
    ∧ g' = {| key := key g; positions := <[i:=p]> (positions g);
              spins := <[i:=s]> (spins g); velocities := velocities g; state := st |}.
Proof using Type.
  unfold particle_update. intros Hg.
  case_bind Hg cost Hcost. case_bind Hg st Hst. case_bind Hg s Hs. case_bind Hg p Hp.
  injection Hg as <-. exists cost, st, s, p. repeat split; done.
Qed.

Lemma update_spin_same_or_flipped (g : Globals) i (spins : list Z) Qs eps s' :
  update_spin cfg g i spins Qs eps = Some s' →
  ∃ s, at_index spins i = Some s ∧ (s' = s ∨ s' = - s).
Proof using Type.
  unfold update_spin. intros Hs'. destruct (Qlt_bool _ _).
  - case_bind Hs' s Hs. injection Hs' as <-. eauto.
  - case_bind Hs' s Hs. case_bind Hs' nb Hnb. case_bind Hs' a Ha.
    injection Hs' as <-. exists s. split; [done|]. destruct (a =? 0)%nat; eauto.
Qed.

Lemma update_spin_pm1 (g : Globals) i (spins : list Z) Qs eps s' :
  Forall pm1 spins → update_spin cfg g i spins Qs eps = Some s' → pm1 s'.
Proof using Type.
  intros Hall (s & Hs & Hs')%update_spin_same_or_flipped.
  apply at_index_elem_of in Hs. rewrite Forall_forall in Hall.
  destruct (Hall _ Hs) as [-> | ->], Hs' as [-> | ->]; unfold pm1; auto.
Qed.

Lemma particle_update_pm1 (g : Globals) i (g' : Globals) :
  Forall pm1 (spins g) → particle_update cfg g i = Some g' → Forall pm1 (spins g').
Proof using Type.
  intros Hall (cost & st & s & p & _ & _ & Hs & _ & ->)%particle_update_Some. simpl.
  destruct (decide (i < length (spins g))%nat) as [Hi|Hi].
  - apply Forall_insert; [done|]. by eapply update_spin_pm1.
  - rewrite list_insert_ge by lia. done.
Qed.

(** A property of the globals kept by every particle update is kept by
    sweeps and by the whole loop. *)
Lemma sweep_from_preserves (P : Globals → Prop) :
  (∀ g i g', P g → particle_update cfg g i = Some g' → P g') →
  ∀ n i g g', P g → sweep_from cfg g i n = Some g' → P g'.
Proof using Type.
  intros Hstep. induction n as [|n IH]; intros i g g' HP Hg; simpl in Hg.
  - by injection Hg as <-.
  - case_bind Hg g1 Hg1. eauto.
Qed.

Lemma simulation_loop_preserves (P : Globals → Prop) :
  (∀ g i g', P g → particle_update cfg g i = Some g' → P g') →
  ∀ t g g', P g → simulation_loop cfg t g = Some g' → P g'.
Proof using Type.
  intros Hstep. induction t as [|t IH]; intros g g' HP Hg; simpl in Hg.
  - by injection Hg as <-.
  - case_bind Hg g1 Hg1. eapply IH; [|done]. eapply sweep_from_preserves; done.
Qed.

Lemma random_choice_elem_of {A} (k : Key) (a r : list A) n :
  random_choice k a n = Some r → length r = n ∧ Forall (λ x, x ∈ a) r.
Proof using Type.
  unfold random_choice. intros Hr. split.
  - apply length_mapM in Hr. by rewrite <- Hr, length_seq.
  - apply mapM_Some in Hr. induction Hr as [|j x js r Hx _ IH]; constructor; [|done].
    by eapply at_index_elem_of.
Qed.

Lemma initialize_Some (seed : Z) (g : Globals) :
  initialize cfg seed = Some g →
  ∃ sp,
    random_choice (PRNGKey seed) [-1; 1] (N cfg) = Some sp
    ∧ g = {| key := (split (PRNGKey seed)).1;
             positions := random_uniform (PRNGKey seed) (N cfg) 0 (L cfg);
             spins := sp;
             velocities := random_uniform (PRNGKey seed) (N cfg) (v1 cfg) (v2 cfg);
             state := create_train_state cfg (split (PRNGKey seed)).2 (alpha cfg) |}.
Proof using Type.
  unfold initialize. intros Hg. case_bind Hg sp Hsp.
  destruct (split (PRNGKey seed)) as [k sub]. injection Hg as <-. eauto.
Qed.

Lemma initialize_pm1 (seed : Z) (g : Globals) :
  initialize cfg seed = Some g → Forall pm1 (spins g).
Proof using Type.
  intros (sp & [_ Hsp]%random_choice_elem_of & ->)%initialize_Some. simpl.
  eapply Forall_impl; [exact Hsp|]. intros s Hs. unfold pm1.
  apply elem_of_cons in Hs as [->|Hs]; [by right|].
  apply list_elem_of_singleton in Hs as ->. by left.
Qed.

(** C5: every spin is [-1] or [+1]: in the array that initialisation
    draws, after each per-particle update of the loop, and so after any
    number of macro time-steps of a run. *)
Theorem spins_stay_plus_or_minus_one :
  (∀ seed g, initialize cfg seed = Some g → Forall pm1 (spins g))
  ∧ (∀ g i g', Forall pm1 (spins g) → particle_update cfg g i = Some g' →
               Forall pm1 (spins g'))
  ∧ (∀ seed num_steps g, run cfg seed num_steps = Some g → Forall pm1 (spins g)).
Proof using Type.
  split; [exact initialize_pm1|]. split; [exact particle_update_pm1|].
  intros seed t g Hrun. unfold run in Hrun. case_bind Hrun g0 Hg0.
  eapply (simulation_loop_preserves (λ g, Forall pm1 (spins g))); [|by eapply initialize_pm1|done].
  exact particle_update_pm1.
Qed.

End Loop.

(** ** The loop runs to completion *)

Section Totality.
Context `{Optimiser}.
Variable cfg : Config.

Lemma nonempty_of_length {A} (l : list A) n : length l = n → (0 < n)%nat → l ≠ [].
Proof using Type. intros Hl Hn ->. simpl in Hl. lia. Qed.

Lemma get_neighbors_is_Some i (positions : list Q) (spins : list Z) :
  positions ≠ [] → length positions = length spins →
  is_Some (get_neighbors cfg i positions spins).
Proof using Type.
intros Hne Hlen. unfold get_neighbors. rewrite at_index_fmap.
destruct (at_index_is_Some positions i Hne) as [p ->]. cbn [fmap option_fmap option_map mbind option_bind].
apply mask_select_is_Some. by rewrite length_map, length_fmap.
Qed.

Lemma update_position_is_Some i (positions : list Q) (spins : list Z) (velocities : list Q) :
  positions ≠ [] → spins ≠ [] → velocities ≠ [] →
  is_Some (update_position cfg i positions spins velocities).
Proof using Type.
intros Hp Hs Hv. unfold update_position.
destruct (at_index_is_Some positions i Hp) as [p ->]. cbn [mbind option_bind].
destruct (at_index_is_Some velocities i Hv) as [v ->]. cbn [mbind option_bind].
destruct (at_index_is_Some spins i Hs) as [s ->]. cbn [mbind option_bind]. eauto.
Qed.

Lemma apply_fn_nonempty (Qs : TrainState) x :
  well_shaped (num_actions cfg) (params Qs) → (0 < num_actions cfg)%nat →
  apply_fn Qs x ≠ [].
Proof using Type.
intros Hshape Hn. eapply nonempty_of_length; [|exact Hn].
by apply QNetwork_length.
Qed.

Lemma update_spin_is_Some (g : Globals) i (spins : list Z) Qs eps :
  spins ≠ [] → length (positions g) = length spins →
  well_shaped (num_actions cfg) (params Qs) → (0 < num_actions cfg)%nat →
  is_Some (update_spin cfg g i spins Qs eps).
Proof using Type.
intros Hne Hlen Hshape Hn. unfold update_spin.
destruct (at_index_is_Some spins i Hne) as [s ->].
destruct (Qlt_bool _ _); cbn [mbind option_bind]; [eauto|].
destruct (get_neighbors_is_Some i (positions g) spins) as [nb ->]; [|done|].
{ intros Hnil. rewrite Hnil in Hlen. by destruct spins. }
cbn [mbind option_bind].
destruct (argmin_is_Some (apply_fn Qs (inject_Z <$> [s; Z.sgn (sum nb)]))) as [a ->];
  [by apply apply_fn_nonempty|].
cbn [mbind option_bind]. eauto.
Qed.

Lemma update_Q_is_Some (g : Globals) i (st : TrainState) cost :
  (0 < N cfg)%nat → (0 < num_actions cfg)%nat →
  length (positions g) = N cfg → length (spins g) = N cfg →
  well_shaped (num_actions cfg) (params st) →
  ∃ st', update_Q cfg g i st cost = Some st'
         ∧ well_shaped (num_actions cfg) (params st')
         ∧ step st' = S (step st).
Proof using Type.
intros HN Hn Hp Hs Hshape. unfold update_Q, update_Q_target.
destruct (at_index_is_Some (spins g) i) as [s ->]; [by eapply nonempty_of_length|].
cbn [mbind option_bind].
destruct (get_neighbors_is_Some i (positions g) (spins g)) as [nb ->];
  [by eapply nonempty_of_length|congruence|].
cbn [mbind option_bind].
destruct (argmin_is_Some (apply_fn st (inject_Z <$> [s; Z.sgn (sum nb)]))) as [a ->];
  [by apply apply_fn_nonempty|].
cbn [mbind option_bind].
pose proof (tx_step_shape (num_actions cfg) (params st) (opt_state st)
  (inject_Z <$> [s; Z.sgn (sum nb)])
  (<[a:=inject_Z cost]> (apply_fn st (inject_Z <$> [s; Z.sgn (sum nb)]))) Hshape) as Hstep.
destruct (tx_step _ _ _ _) as [p' o']. eexists. split; [done|]. split; done.
Qed.

Lemma cost_function_is_Some (g : Globals) i :
  (0 < N cfg)%nat → (0 < num_actions cfg)%nat → well_formed cfg g →
  is_Some (cost_function cfg g i (positions g) (spins g)).
Proof using Type.
intros HN Hn (Hp & Hs & Hv & Hshape). unfold cost_function.
assert (positions g ≠ []) by by eapply nonempty_of_length.
assert (spins g ≠ []) by by eapply nonempty_of_length.
assert (velocities g ≠ []) by by eapply nonempty_of_length.
destruct (get_neighbors_is_Some i (positions g) (spins g)) as [nb ->]; [done|congruence|].
cbn [mbind option_bind].
destruct (update_spin_is_Some g i (spins g) (state g) (epsilon cfg)) as [s ->];
  [done|congruence|done|done|].
cbn [mbind option_bind].
destruct (update_position_is_Some i (positions g) (spins g) (velocities g)) as [p ->];
  [done..|].
cbn [mbind option_bind].
destruct (get_neighbors_is_Some i (<[i:=p]> (positions g)) (<[i:=s]> (spins g))) as [nb' ->].
- intros Hnil. apply (f_equal length) in Hnil. rewrite length_insert in Hnil.
  simpl in Hnil. lia.
- rewrite !length_insert. congruence.
- cbn [mbind option_bind]. eauto.
Qed.

(** Every pass of the loop body over a well-formed state yields a
    well-formed state, with one more optimiser step taken. *)
Lemma particle_update_total (g : Globals) i :
  (0 < N cfg)%nat → (0 < num_actions cfg)%nat → well_formed cfg g →
  ∃ g', particle_update cfg g i = Some g' ∧ well_formed cfg g'
        ∧ step (state g') = S (step (state g)).
Proof using Type.
intros HN Hn Hwf. pose proof Hwf as (Hp & Hs & Hv & Hshape). unfold particle_update.
destruct (cost_function_is_Some g i HN Hn Hwf) as [cost ->]. cbn [mbind option_bind].
destruct (update_Q_is_Some g i (state g) cost HN Hn Hp Hs Hshape) as (st & -> & Hst & Hstep).
cbn [mbind option_bind].
destruct (update_spin_is_Some (set_state g st) i (spins (set_state g st))
            (state (set_state g st)) (epsilon cfg)) as [s ->]; simpl.
{ by eapply nonempty_of_length. } { congruence. } { done. } { done. }
destruct (update_position_is_Some i (positions g) (<[i:=s]> (spins g)) (velocities g))
  as [p ->]; simpl.
{ by eapply nonempty_of_length. }
{ intros Hnil. apply (f_equal length) in Hnil. rewrite length_insert in Hnil.
  simpl in Hnil. lia. }
{ by eapply nonempty_of_length. }
eexists. split; [done|]. split; [|done].
unfold well_formed. simpl. rewrite !length_insert. done.
Qed.

Lemma sweep_from_total n : ∀ (g : Globals) i,
  (0 < num_actions cfg)%nat → ((0 < n)%nat → (0 < N cfg)%nat) → well_formed cfg g →
  ∃ g', sweep_from cfg g i n = Some g' ∧ well_formed cfg g'
        ∧ step (state g') = (step (state g) + n)%nat.
Proof using Type.
induction n as [|n IH]; intros g i Hn HN Hwf; simpl.
- exists g. split; [done|]. split; [done|]. lia.
- destruct (particle_update_total g i) as (g1 & -> & Hwf1 & Hstep1); [lia|done|done|].
  cbn [mbind option_bind].
  destruct (IH g1 (S i)) as (g' & -> & Hwf' & Hstep'); [done|lia|done|].
  exists g'. split; [done|]. split; [done|]. lia.
Qed.

Lemma simulation_loop_total t : ∀ (g : Globals),
  (0 < num_actions cfg)%nat → well_formed cfg g →
  ∃ g', simulation_loop cfg t g = Some g' ∧ well_formed cfg g'
        ∧ step (state g') = (step (state g) + t * N cfg)%nat.
Proof using Type.
induction t as [|t IH]; intros g Hn Hwf; simpl.
- exists g. split; [done|]. split; [done|]. lia.
- unfold sweep.
  destruct (sweep_from_total (N cfg) g 0) as (g1 & -> & Hwf1 & Hstep1); [done|lia|done|].
  cbn [mbind option_bind].
  destruct (IH g1) as (g' & -> & Hwf' & Hstep'); [done|done|].
  exists g'. split; [done|]. split; [done|]. lia.
Qed.

Lemma initialize_total (seed : Z) :
  ∃ g, initialize cfg seed = Some g ∧ well_formed cfg g ∧ step (state g) = 0%nat.
Proof using Type.
unfold initialize.
destruct (random_choice (PRNGKey seed) [-1; 1] (N cfg)) as [sp|] eqn:Hsp.
- cbn [mbind option_bind]. destruct (split (PRNGKey seed)) as [k sub].
  eexists. split; [done|]. split; [|done].
  unfold well_formed, random_uniform. simpl. rewrite !length_map, !length_seq.
  split; [done|]. split; [|split; [done|apply q_net_init_shape]].
  by apply random_choice_elem_of in Hsp as [-> _].
- exfalso. unfold random_choice in Hsp.
  assert (Hall : is_Some (mapM (λ j, at_index [-1; 1]
             (randint_at (PRNGKey seed) (N cfg) (length [-1; 1]) j)) (seq 0 (N cfg)))).
  { apply mapM_is_Some, Forall_forall. intros j _. by apply at_index_is_Some. }
  rewrite Hsp in Hall. by destruct Hall.
Qed.

Lemma run_total (seed : Z) (num_steps : nat) :
  (0 < num_actions cfg)%nat →
  ∃ g, run cfg seed num_steps = Some g ∧ well_formed cfg g
       ∧ step (state g) = (num_steps * N cfg)%nat.
Proof using Type.
intros Hn. unfold run.
destruct (initialize_total seed) as (g0 & -> & Hwf0 & Hstep0). cbn [mbind option_bind].
destruct (simulation_loop_total num_steps g0 Hn Hwf0) as (g & -> & Hwf & Hstep).
exists g. split; [done|]. split; [done|]. rewrite Hstep, Hstep0. done.
Qed.

End Totality.

Lemma spins_stay_plus_or_minus_one_witness :
  ∃ g : Sample.State, run Sample.cfg3 0 2 = Some g ∧ Forall pm1 (spins g).
Proof.
destruct (@run_total Sample.lcg Sample.bias_descent Sample.cfg3 0 2) as (g & Hg & _);
  [vm_compute; lia|].
exists g. split; [exact Hg|].
exact (proj2 (proj2 (spins_stay_plus_or_minus_one Sample.cfg3)) 0 2%nat g Hg).
Defined.

(** ** Configurations are not validated *)

(** C7 (amended): no configuration is rejected.  Whatever [v1], [v2],
    [alpha], [epsilon] and [delta_t] are, inside the documented domain or
    not, and for every particle count [N >= 0], initialisation succeeds and
    the loop makes all [num_steps * N] particle updates (as long as the
    network has at least one output). *)
Theorem run_accepts_every_configuration `{Optimiser} (cfg : Config) (seed : Z)
    (num_steps : nat) :
  (0 < num_actions cfg)%nat →
  ∃ g0 g : Globals,
    initialize cfg seed = Some g0
    ∧ run cfg seed num_steps = Some g
    ∧ well_formed cfg g
    ∧ step (state g) = (num_steps * N cfg)%nat.
Proof.
intros Hn.
destruct (initialize_total cfg seed) as (g0 & Hg0 & _).
destruct (run_total cfg seed num_steps Hn) as (g & Hg & Hwf & Hstep).
exists g0, g. done.
Qed.

Lemma run_accepts_every_configuration_witness :
  ∃ g0 g : Sample.State,
    initialize Sample.cfg_invalid 0 = Some g0
    ∧ run Sample.cfg_invalid 0 2 = Some g
    ∧ well_formed Sample.cfg_invalid g
    ∧ step (state g) = (2 * N Sample.cfg_invalid)%nat.
Proof.
apply (run_accepts_every_configuration Sample.cfg_invalid 0 2). vm_compute. lia.
Defined.

(** C7 as stated fails: a configuration with [v1 >= v2], [alpha = 2],
    [epsilon = -1] and [delta_t = -1/10] is initialised and run for two
    macro time-steps, six particle updates in all; a configuration with
    [N = 0] is run as well. *)
Lemma invalid_configuration_is_run :
  ¬ documented_domain Sample.cfg_invalid
  ∧ (g ← (initialize Sample.cfg_invalid 0 : option Sample.State);
     Some (length (positions g))) = Some 3%nat
  ∧ (g ← (run Sample.cfg_invalid 0 2 : option Sample.State); Some (step (state g)))
    = Some 6%nat
  ∧ ¬ documented_domain Sample.cfg_empty
  ∧ (g ← (run Sample.cfg_empty 0 2 : option Sample.State); Some (step (state g)))
    = Some 0%nat.
Proof.
split; [|split; [|split; [|split]]].
- intros (_ & Hv & _). revert Hv. unfold Qlt. simpl. lia.
- vm_compute. reflexivity.
- vm_compute. reflexivity.
- intros (HN & _). vm_compute in HN. lia.
- vm_compute. reflexivity.
Qed.

(** ** Empty neighbor sets *)

(** C8: when the neighbor query returns no spin, the sign of the (empty) sum
    is 0 and the state descriptor is [[s, 0]]: [update_spin] and [update_Q]
    return a value computed from it; and every per-particle update of a
    well-formed state returns. *)
Theorem empty_neighborhood_sign_zero `{Optimiser} (cfg : Config) (g : Globals) (i : nat)
    (sp : list Z) (Qs : TrainState) (eps : Q) (cost s : Z) :
  (0 < num_actions cfg)%nat →
  well_shaped (num_actions cfg) (params Qs) →
  at_index sp i = Some s →
  get_neighbors cfg i (positions g) sp = Some [] →
  Z.sgn (sum []) = 0
  ∧ is_Some (update_spin cfg g i sp Qs eps)
  ∧ (Qlt_bool (unit_uniform (key g)) eps = false →
     ∃ a, argmin (apply_fn Qs (inject_Z <$> [s; 0])) = Some a
          ∧ update_spin cfg g i sp Qs eps = Some (if (a =? 0)%nat then s else - s))
  ∧ (sp = spins g →
     ∃ a, update_Q_target cfg g i Qs cost
          = Some (inject_Z <$> [s; 0], a,
                  <[a:=inject_Z cost]> (apply_fn Qs (inject_Z <$> [s; 0])))
          ∧ is_Some (update_Q cfg g i Qs cost))
  ∧ ((0 < N cfg)%nat → well_formed cfg g → is_Some (particle_update cfg g i)).
Proof.
intros Hn Hshape Hs Hnb.
destruct (argmin_is_Some (apply_fn Qs (inject_Z <$> [s; 0]))) as [a Ha];
  [by apply (apply_fn_nonempty cfg)|].
split; [done|]. split; [|split; [|split]].
- unfold update_spin. rewrite Hs, Hnb. destruct (Qlt_bool _ _); cbn [mbind option_bind]; [eauto|].
  change (Z.sgn (sum [])) with 0. rewrite Ha. cbn [mbind option_bind]. eauto.
- intros Htest. exists a. split; [done|].
  unfold update_spin. rewrite Htest, Hs. cbn [mbind option_bind].
  rewrite Hnb. cbn [mbind option_bind]. change (Z.sgn (sum [])) with 0.
  by rewrite Ha.
- intros ->. exists a.
  assert (Ht : update_Q_target cfg g i Qs cost
          = Some (inject_Z <$> [s; 0], a,
                  <[a:=inject_Z cost]> (apply_fn Qs (inject_Z <$> [s; 0])))).
  { unfold update_Q_target. rewrite Hs. cbn [mbind option_bind].
    rewrite Hnb. cbn [mbind option_bind]. change (Z.sgn (sum [])) with 0.
    by rewrite Ha. }
  split; [done|]. unfold update_Q. rewrite Ht. cbn [mbind option_bind].
  destruct (tx_step _ _ _ _). eauto.
- intros HN Hwf. destruct (particle_update_total cfg g i HN Hn Hwf) as (g' & -> & _). eauto.
Qed.

Lemma empty_neighborhood_sign_zero_witness :
  Z.sgn (sum []) = 0
  ∧ is_Some (update_spin Sample.cfg_negative_range Sample.g3 1 (spins Sample.g3)
               (state Sample.g3) (1 # 10))
  ∧ (Qlt_bool (unit_uniform (key Sample.g3)) (1 # 10) = false →
     ∃ a, argmin (apply_fn (state Sample.g3) (inject_Z <$> [1; 0])) = Some a
          ∧ update_spin Sample.cfg_negative_range Sample.g3 1 (spins Sample.g3)
              (state Sample.g3) (1 # 10) = Some (if (a =? 0)%nat then 1 else - 1))
  ∧ (spins Sample.g3 = spins Sample.g3 →
     ∃ a, update_Q_target Sample.cfg_negative_range Sample.g3 1 (state Sample.g3) 0
          = Some (inject_Z <$> [1; 0], a,
                  <[a:=inject_Z 0]> (apply_fn (state Sample.g3) (inject_Z <$> [1; 0])))
          ∧ is_Some (update_Q Sample.cfg_negative_range Sample.g3 1 (state Sample.g3) 0))
  ∧ ((0 < N Sample.cfg_negative_range)%nat → well_formed Sample.cfg_negative_range Sample.g3 →
     is_Some (particle_update Sample.cfg_negative_range Sample.g3 1)).
Proof.
apply (empty_neighborhood_sign_zero Sample.cfg_negative_range Sample.g3 1 (spins Sample.g3)
         (state Sample.g3) (1 # 10) 0 1).
- vm_compute. lia.
- split; split; try reflexivity; split; try reflexivity; repeat constructor.
- reflexivity.
- reflexivity.
Defined.

(** ** Frame of the loop *)

Section Frame.
Context `{Optimiser}.
Variable cfg : Config.

Lemma random_uniform_range (k : Key) n (minval maxval : Q) :
  (minval <= maxval)%Q →
  Forall (λ v, (minval <= v)%Q ∧ (v <= maxval)%Q) (random_uniform k n minval maxval).
Proof using Type.
intros Hle. unfold random_uniform. apply Forall_fmap, Forall_forall. intros j _. simpl.
destruct (unit_uniform_at_range k n j) as [Hu0 Hu1]. split.
- apply Q.le_max_l.
- apply Q.max_lub; [done|]. nra.
Qed.



End Frame.


(** ** The exploration test *)

Section Exploration.
Context `{Optimiser}.
Variable cfg : Config.

(** No assignment of the loop touches [key] or [velocities]. *)
Lemma during_key (g0 g : Globals) : during cfg g0 g → key g = key g0.
Proof using Type. induction 1; simpl; done. Qed.

Lemma particle_update_during (g0 g : Globals) i (g' : Globals) :
  during cfg g0 g → particle_update cfg g i = Some g' → during cfg g0 g'.
Proof using Type.
intros Hg. unfold particle_update. intros Hg'.
case_bind Hg' cost Hcost. case_bind Hg' st Hst. case_bind Hg' s Hs. case_bind Hg' p Hp.
injection Hg' as <-.
apply (during_update_position cfg g0
         (set_spins (set_state g st) (<[i:=s]> (spins (set_state g st)))) i p); [|exact Hp].
apply (during_update_spin cfg g0 (set_state g st) i s); [|exact Hs].
apply (during_update_Q cfg g0 g i cost st); done.
Qed.

Lemma simulation_loop_during (g0 : Globals) t (g : Globals) :
  simulation_loop cfg t g0 = Some g → during cfg g0 g.
Proof using Type.
apply (simulation_loop_preserves cfg (during cfg g0)); [|constructor].
intros g1 i g2. apply particle_update_during.
Qed.

(** C10: [update_spin] tests [uniform(key) < epsilon] on the global [key],
    which no statement of the loop assigns: at every value the globals take
    during a run (the states between macro time-steps and between the
    statements of the loop body are among them) the key, the draw and so
    the test are what they are at the start.  So either every call of
    [update_spin] in the run takes the exploration branch (and returns the
    flipped spin), or every call takes the other branch. *)
Theorem exploration_decision_constant (g0 : Globals) :
  (∀ num_steps g, simulation_loop cfg num_steps g0 = Some g → during cfg g0 g)
  ∧ (∀ g i g', during cfg g0 g → particle_update cfg g i = Some g' → during cfg g0 g')
  ∧ (∀ g, during cfg g0 g →
       key g = key g0 ∧ unit_uniform (key g) = unit_uniform (key g0))
  ∧ ((∀ g, during cfg g0 g →
        Qlt_bool (unit_uniform (key g)) (epsilon cfg) = true
        ∧ ∀ i sp Qs, update_spin cfg g i sp Qs (epsilon cfg)
                     = (s ← at_index sp i; Some (- s)))
     ∨ (∀ g, during cfg g0 g →
          Qlt_bool (unit_uniform (key g)) (epsilon cfg) = false)).
Proof using Type.
split; [intros t g; apply simulation_loop_during|].
split; [intros g i g'; apply particle_update_during|].
split; [intros g Hg; by rewrite (during_key g0 g Hg)|].
destruct (Qlt_bool (unit_uniform (key g0)) (epsilon cfg)) eqn:Htest; [left|right].
- intros g Hg. rewrite (during_key g0 g Hg). split; [done|].
  intros i sp Qs. unfold update_spin. by rewrite (during_key g0 g Hg), Htest.
- intros g Hg. by rewrite (during_key g0 g Hg).
Qed.

End Exploration.

Lemma exploration_decision_constant_witness :
  ∃ g : Sample.State,
    simulation_loop Sample.cfg3 2 Sample.g3 = Some g
    ∧ during Sample.cfg3 Sample.g3 g ∧ key g = key Sample.g3.
Proof.
destruct (simulation_loop_total Sample.cfg3 2 Sample.g3) as (g & Hg & _);
  [vm_compute; lia|by apply Sample.g3_well_formed|].
exists g. split; [exact Hg|].
pose proof (exploration_decision_constant Sample.cfg3 Sample.g3) as (Hloop & _ & Hkey & _).
split; [exact (Hloop 2%nat g Hg)|exact (proj1 (Hkey g (Hloop 2%nat g Hg)))].
Defined.

(** * Further properties of the notebooks *)

(** ** Neighbor query: failures and counts *)

(** X4: [get_neighbors] raises exactly on an empty [positions] array and
    on arrays of different lengths; otherwise it returns. *)
Theorem get_neighbors_fails_iff (cfg : Config) (i : nat) (positions : list Q)
    (spins : list Z) :
  get_neighbors cfg i positions spins = None
  ↔ positions = [] ∨ length positions ≠ length spins.
Proof.
split.
- intros Hnone. destruct (decide (positions = [])) as [|Hne]; [by left|]. right.
  intros Hlen. destruct (get_neighbors_is_Some cfg i positions spins Hne Hlen) as [r Hr].
  congruence.
- unfold get_neighbors. intros [-> | Hlen]; [done|].
  destruct (at_index (f32 <$> positions) i) as [p|]; [|done]. cbn [mbind option_bind].
  destruct (mask_select spins _) as [r|] eqn:Hr; [|done].
  apply mask_select_Some_length in Hr. rewrite length_map, length_fmap in Hr. congruence.
Qed.

Lemma mask_select_length_le {A} (a : list A) mask r :
  mask_select a mask = Some r → (length r <= length a)%nat.
Proof.
revert mask r. induction a as [|x a IH]; intros [|b mask] r Hr; simplify_eq/=; [done|].
destruct (mask_select a mask) as [r'|] eqn:Hr'; simplify_eq/=.
specialize (IH _ _ Hr'). destruct b; simpl; lia.
Qed.

(** The number of selected elements is a matter of the mask alone. *)
Lemma mask_select_length_mask {A B} (a : list A) (a' : list B) mask r r' :
  mask_select a mask = Some r → mask_select a' mask = Some r' → length r = length r'.
Proof.
revert a' mask r r'. induction a as [|x a IH]; intros [|x' a'] [|b mask] r r' Hr Hr';
  simplify_eq/=; [done|].
destruct (mask_select a mask) as [r1|] eqn:Hr1; simplify_eq/=.
destruct (mask_select a' mask) as [r2|] eqn:Hr2; simplify_eq/=.
specialize (IH _ _ _ _ Hr1 Hr2). destruct b; simpl; lia.
Qed.

Lemma get_neighbors_counts_self (cfg : Config) i (positions : list Q) (spins : list Z) r :
  (0 <= delta_x cfg)%Q → (i < length positions)%nat →
  get_neighbors cfg i positions spins = Some r →
  (1 <= length r)%nat ∧ (length r <= length positions)%nat.
Proof.
intros Hdx Hi. unfold get_neighbors. rewrite at_index_fmap, at_index_lt by done.
destruct (positions !! i) as [p|] eqn:Hp; [|done].
cbn [fmap option_fmap option_map mbind option_bind]. intros Hr.
pose proof (mask_select_Some_length _ _ _ Hr) as Hlen.
rewrite length_map, length_fmap in Hlen.
split; [|rewrite <- Hlen; by eapply mask_select_length_le].
destruct (mask_select_indices _ _ _ Hr) as (js & _ & Hjs & _ & Hmem).
assert (Hin : i ∈ js).
{ apply Hmem, in_range_mask. exists (f32 p). split.
  - by rewrite list_lookup_fmap, Hp.
  - by apply f32_interval_self. }
rewrite Hjs. destruct js; [by apply elem_of_nil in Hin|simpl; lia].
Qed.

(** X5: for a range [delta_x >= 0] and a particle [i] of the arrays, the
    neighbor set holds at least one spin (the particle's own) and at most
    as many as there are particles. *)
Theorem get_neighbors_count_bounds (cfg : Config) (i : nat) (positions : list Q)
    (spins : list Z) :
  (0 <= delta_x cfg)%Q → (i < length positions)%nat →
  length positions = length spins →
  ∃ r, get_neighbors cfg i positions spins = Some r
       ∧ (1 <= length r)%nat ∧ (length r <= length positions)%nat.
Proof.
intros Hdx Hi Hlen.
destruct (get_neighbors_is_Some cfg i positions spins) as [r Hr]; [|done|].
{ intros ->. simpl in Hi. lia. }
exists r. split; [done|]. by eapply get_neighbors_counts_self.
Qed.

Lemma get_neighbors_count_bounds_witness :
  ∃ r, get_neighbors Sample.cfg3 2 [0; 1 # 2; 5]%Q [1; 1; -1] = Some r
       ∧ (1 <= length r)%nat ∧ (length r <= length [0; 1 # 2; 5]%Q)%nat.
Proof.
apply (get_neighbors_count_bounds Sample.cfg3 2 [0; 1 # 2; 5]%Q [1; 1; -1]).
- vm_compute. discriminate.
- simpl. lia.
- reflexivity.
Defined.

(** The number of neighbors does not depend on the spins. *)
Lemma get_neighbors_length_spins (cfg : Config) i (positions : list Q)
    (sp1 sp2 : list Z) r1 r2 :
  get_neighbors cfg i positions sp1 = Some r1 →
  get_neighbors cfg i positions sp2 = Some r2 →
  length r1 = length r2.
Proof.
unfold get_neighbors. destruct (at_index (f32 <$> positions) i) as [p|]; [|done].
cbn [mbind option_bind]. apply mask_select_length_mask.
Qed.

(** ** Cost signal: what it depends on *)

Section Cost.
Context `{Optimiser}.

Lemma cost_function_Some (cfg : Config) (g : Globals) i (positions : list Q)
    (spins : list Z) c :
  cost_function cfg g i positions spins = Some c →
  ∃ before new_spin p v s after,
    get_neighbors cfg i positions spins = Some before
    ∧ update_spin cfg g i spins (state g) (epsilon cfg) = Some new_spin
    ∧ at_index positions i = Some p ∧ at_index (velocities g) i = Some v
    ∧ at_index spins i = Some s
    ∧ get_neighbors cfg i
        (<[i:=f32 (p + f32 (f32 (v * inject_Z s) * f32 (delta_t cfg)))]> positions)
        (<[i:=new_spin]> spins) = Some after
    ∧ c = if (length after <? length before)%nat then 1 else 0.
Proof using Type.
unfold cost_function, update_position. intros Hc.
case_bind Hc before Hb. case_bind Hc new_spin Hn. case_bind Hc new_position Hnp.
case_bind Hnp p Hp. case_bind Hnp v Hv. case_bind Hnp s Hs. injection Hnp as <-.
case_bind Hc after Ha. injection Hc as <-.
exists before, new_spin, p, v, s, after. done.
Qed.

(** X6: the cost does not depend on the action that [update_spin] selects
    inside [cost_function], nor on anything the selection reads (the
    Q-function state, the key, [epsilon]): two evaluations on the same
    positions that agree on [delta_x], [delta_t], [velocities[i]] and
    [spins[i]] return the same cost. *)
Theorem cost_function_ignores_action (cfg1 cfg2 : Config) (g1 g2 : Globals) (i : nat)
    (positions : list Q) (sp1 sp2 : list Z) (c1 c2 : Z) :
  delta_x cfg1 = delta_x cfg2 → delta_t cfg1 = delta_t cfg2 →
  at_index (velocities g1) i = at_index (velocities g2) i →
  at_index sp1 i = at_index sp2 i →
  cost_function cfg1 g1 i positions sp1 = Some c1 →
  cost_function cfg2 g2 i positions sp2 = Some c2 →
  c1 = c2.
Proof using Type.
intros Hdx Hdt Hv Hs
  (b1 & n1 & p1 & v1 & s1 & a1 & Hb1 & _ & Hp1 & Hv1 & Hs1 & Ha1 & ->)%cost_function_Some
  (b2 & n2 & p2 & v2 & s2 & a2 & Hb2 & _ & Hp2 & Hv2 & Hs2 & Ha2 & ->)%cost_function_Some.
assert (p1 = p2) as -> by congruence.
assert (v1 = v2) as -> by congruence.
assert (s1 = s2) as -> by congruence.
assert (Hget : ∀ j ps sp, get_neighbors cfg1 j ps sp = get_neighbors cfg2 j ps sp).
{ intros j ps sp. unfold get_neighbors. by rewrite Hdx. }
rewrite Hget in Hb1, Ha1. rewrite Hdt in Ha1.
by rewrite (get_neighbors_length_spins _ _ _ _ _ _ _ Hb1 Hb2),
  (get_neighbors_length_spins _ _ _ _ _ _ _ Ha1 Ha2).
Qed.

(** X7: a particle whose neighbor set holds one spin only (its own) pays
    no cost, wherever it moves: with [delta_x >= 0] it still counts
    itself afterwards. *)
Theorem cost_function_isolated_particle (cfg : Config) (g : Globals) (i : nat)
    (positions : list Q) (spins before : list Z) (c : Z) :
  (0 <= delta_x cfg)%Q → (i < length positions)%nat →
  get_neighbors cfg i positions spins = Some before →
  length before = 1%nat →
  cost_function cfg g i positions spins = Some c →
  c = 0.
Proof using Type.
intros Hdx Hi Hbefore Hone
  (b & n & p & v & s & a & Hb & _ & _ & _ & _ & Ha & ->)%cost_function_Some.
assert (b = before) as -> by congruence.
apply get_neighbors_counts_self in Ha as [Hge _]; [|done|by rewrite length_insert].
rewrite Hone. destruct (Nat.ltb_spec (length a) 1); [lia|done].
Qed.

End Cost.

Lemma cost_function_ignores_action_witness :
  cost_function Sample.cfg3 Sample.g3 1 [0; 1; 5]%Q [1; 1; -1] = Some 1
  ∧ cost_function Sample.cfg_explore Sample.g3 1 [0; 1; 5]%Q [1; 1; 1] = Some 1
  ∧ (1 : Z) = 1.
Proof.
split; [reflexivity|]. split; [reflexivity|].
apply (cost_function_ignores_action Sample.cfg3 Sample.cfg_explore Sample.g3 Sample.g3 1
         [0; 1; 5]%Q [1; 1; -1] [1; 1; 1] 1 1); reflexivity.
Defined.

Lemma cost_function_isolated_particle_witness :
  get_neighbors Sample.cfg3 2 [0; 1; 5]%Q [1; 1; -1] = Some [-1]
  ∧ cost_function Sample.cfg3 Sample.g3 2 [0; 1; 5]%Q [1; 1; -1] = Some 0
  ∧ (0 : Z) = 0.
Proof.
split; [reflexivity|]. split; [reflexivity|].
apply (cost_function_isolated_particle Sample.cfg3 Sample.g3 2 [0; 1; 5]%Q [1; 1; -1] [-1] 0).
- vm_compute. discriminate.
- simpl. lia.
- reflexivity.
- reflexivity.
- reflexivity.
Defined.

(** ** Action selection and its use *)

Section Selection.
Context `{Optimiser}.
Variable cfg : Config.

(** X8: with two action values [a] (keep) and [b] (flip) and the
    exploration test failing, [update_spin] keeps the spin when [a <= b],
    equal estimates included, and flips it when [b < a]. *)
Theorem update_spin_two_actions (g : Globals) (i : nat) (spins : list Z)
    (Qs : TrainState) (eps : Q) (s : Z) (nb : list Z) (a b : Q) :
  Qlt_bool (unit_uniform (key g)) eps = false →
  at_index spins i = Some s →
  get_neighbors cfg i (positions g) spins = Some nb →
  apply_fn Qs (inject_Z <$> [s; Z.sgn (sum nb)]) = [a; b] →
  ((a <= b)%Q → update_spin cfg g i spins Qs eps = Some s)
  ∧ ((b < a)%Q → update_spin cfg g i spins Qs eps = Some (- s)).
Proof using Type.
intros Htest Hs Hnb Hq.
assert (Hupd : update_spin cfg g i spins Qs eps
               = Some (if Qlt_bool b a then - s else s)).
{ unfold update_spin. rewrite Htest, Hs. cbn [mbind option_bind].
  rewrite Hnb. cbn [mbind option_bind]. rewrite Hq. simpl.
  by destruct (Qlt_bool b a). }
rewrite Hupd. split; intros Hab.
- destruct (Qlt_bool b a) eqn:Hba; [|done].
  apply Qlt_bool_iff in Hba. by apply Qlt_not_le in Hba.
- apply Qlt_bool_iff in Hab. by rewrite Hab.
Qed.

(** X9: when the exploration test fails, the action whose estimate
    [update_Q] replaces is the one [update_spin] applies inside
    [cost_function] on the same globals: both take the least estimate of
    the same descriptor. *)
Theorem update_Q_follows_exploiting_choice (g : Globals) (i : nat) (cost s : Z)
    (x target : list Q) (action : nat) :
  Qlt_bool (unit_uniform (key g)) (epsilon cfg) = false →
  at_index (spins g) i = Some s →
  update_Q_target cfg g i (state g) cost = Some (x, action, target) →
  update_spin cfg g i (spins g) (state g) (epsilon cfg)
  = Some (if (action =? 0)%nat then s else - s).
Proof using Type.
intros Htest Hs. unfold update_Q_target, update_spin. rewrite Htest, Hs.
cbn [mbind option_bind]. intros Ht.
case_bind Ht nb Hnb. case_bind Ht a Ha. injection Ht as _ Hact _. subst a.
cbn [mbind option_bind]. by rewrite Ha.
Qed.

(** X10: the position written by the loop body moves particle [i] by its
    velocity times the spin just written, the new one:
    [positions'[i] = positions[i] + velocities[i] * spins'[i] * delta_t],
    each operation rounded to float32 as the source computes it. *)
Theorem particle_update_moves_with_new_spin (g g' : Globals) (i : nat) :
  (i < length (spins g))%nat → length (positions g) = length (spins g) →
  particle_update cfg g i = Some g' →
  ∃ p v s',
    positions g !! i = Some p ∧ at_index (velocities g) i = Some v
    ∧ spins g' !! i = Some s'
    ∧ positions g' !! i
      = Some (f32 (p + f32 (f32 (v * inject_Z s') * f32 (delta_t cfg)))).
Proof using Type.
intros Hi Hlen (cost & st & s & p' & _ & _ & _ & Hp' & ->)%particle_update_Some. simpl.
unfold update_position in Hp'.
case_bind Hp' p Hp. case_bind Hp' v Hv. case_bind Hp' s0 Hs0. injection Hp' as <-.
rewrite at_index_lt in Hp by lia.
rewrite at_index_lt in Hs0 by (rewrite length_insert; lia).
rewrite list_lookup_insert_eq in Hs0 by done. injection Hs0 as <-.
exists p, v, s. split; [done|]. split; [done|].
split; apply list_lookup_insert_eq; lia.
Qed.

End Selection.

Lemma update_spin_two_actions_witness :
  ((0 <= 1)%Q → update_spin Sample.cfg3 Sample.g3 1 [1; 1; -1] (state Sample.g3) (1 # 10)
                = Some 1)
  ∧ ((1 < 0)%Q → update_spin Sample.cfg3 Sample.g3 1 [1; 1; -1] (state Sample.g3) (1 # 10)
                = Some (- 1)).
Proof.
apply (update_spin_two_actions Sample.cfg3 Sample.g3 1 [1; 1; -1] (state Sample.g3)
         (1 # 10) 1 [1; 1] 0 1); reflexivity.
Defined.

Lemma update_Q_follows_exploiting_choice_witness :
  update_spin Sample.cfg3 Sample.g3 1 (spins Sample.g3) (state Sample.g3)
    (epsilon Sample.cfg3) = Some 1.
Proof.
apply (update_Q_follows_exploiting_choice Sample.cfg3 Sample.g3 1 1 1 [1; 1]%Q [1; 1]%Q 0);
  reflexivity.
Defined.

Lemma particle_update_moves_with_new_spin_witness :
  ∃ (g' : Sample.State) p v s',
    particle_update Sample.cfg_explore Sample.g3 1 = Some g'
    ∧ positions Sample.g3 !! 1%nat = Some p ∧ at_index (velocities Sample.g3) 1 = Some v
    ∧ spins g' !! 1%nat = Some s'
    ∧ positions g' !! 1%nat
      = Some (f32 (p + f32 (f32 (v * inject_Z s') * f32 (delta_t Sample.cfg_explore)))).
Proof.
destruct (particle_update_total Sample.cfg_explore Sample.g3 1) as (g' & Hg' & _);
  [vm_compute; lia|vm_compute; lia|by apply Sample.g3_well_formed|].
destruct (particle_update_moves_with_new_spin Sample.cfg_explore Sample.g3 g' 1)
  as (p & v & s' & Hp & Hv & Hs' & Hp'); [simpl; lia|reflexivity|exact Hg'|].
exists g', p, v, s'. split; [exact Hg'|]. split; [exact Hp|]. split; [exact Hv|].
split; [exact Hs'|exact Hp'].
Defined.

(** ** Sweeps *)

Section Sweeps.
Context `{Optimiser}.
Variable cfg : Config.

Lemma particle_update_lengths (g : Globals) i (g' : Globals) :
  particle_update cfg g i = Some g' →
  length (positions g') = length (positions g)
  ∧ length (spins g') = length (spins g)
  ∧ length (velocities g') = length (velocities g).
Proof using Type.
intros (cost & st & s & p & _ & _ & _ & _ & ->)%particle_update_Some. simpl.
by rewrite !length_insert.
Qed.

(** X3: the three particle arrays keep their lengths through every pass
    of the loop body and so through any number of macro time-steps. *)
Theorem simulation_loop_lengths (num_steps : nat) (g g' : Globals) :
  simulation_loop cfg num_steps g = Some g' →
  length (positions g') = length (positions g)
  ∧ length (spins g') = length (spins g)
  ∧ length (velocities g') = length (velocities g).
Proof using Type.
apply (simulation_loop_preserves cfg (λ g1,
  length (positions g1) = length (positions g)
  ∧ length (spins g1) = length (spins g)
  ∧ length (velocities g1) = length (velocities g))); [|done].
intros g1 i g2 (Hp & Hs & Hv) (Hp' & Hs' & Hv')%particle_update_lengths.
split; [congruence|]. split; congruence.
Qed.

Lemma sweep_from_app (n m : nat) : ∀ (g : Globals) i,
  sweep_from cfg g i (n + m) = (g1 ← sweep_from cfg g i n; sweep_from cfg g1 (i + n) m).
Proof using Type.
induction n as [|n IH]; intros g i; simpl.
- by rewrite Nat.add_0_r.
- destruct (particle_update cfg g i) as [g1|]; [|done]. cbn [mbind option_bind].
  rewrite IH. by replace (S i + n)%nat with (i + S n)%nat by lia.
Qed.

(** X13: running the loop for [a] macro time-steps and then, from the
    globals it leaves, for [b] more is running it for [a + b]; when the
    first part raises so does the whole. *)
Theorem simulation_loop_add (a b : nat) (g : Globals) :
  simulation_loop cfg (a + b) g
  = (g1 ← simulation_loop cfg a g; simulation_loop cfg b g1).
Proof using Type.
revert g. induction a as [|a IH]; intros g; simpl; [done|].
destruct (sweep cfg g) as [g1|]; [|done]. cbn [mbind option_bind]. apply IH.
Qed.

(** Under a succeeding exploration test one pass of the loop body negates
    spin [i] and leaves the key. *)
Lemma particle_update_exploring (g : Globals) i (g' : Globals) :
  Qlt_bool (unit_uniform (key g)) (epsilon cfg) = true →
  (i < length (spins g))%nat →
  particle_update cfg g i = Some g' →
  key g' = key g ∧ length (spins g') = length (spins g)
  ∧ ∀ j, spins g' !! j = if decide (j = i) then Z.opp <$> spins g !! j else spins g !! j.
Proof using Type.
intros Htest Hi (cost & st & s & p & _ & _ & Hs & _ & ->)%particle_update_Some. simpl.
unfold update_spin in Hs. simpl in Hs. rewrite Htest in Hs.
case_bind Hs s0 Hs0. injection Hs as <-. rewrite at_index_lt in Hs0 by done.
split; [done|]. split; [by rewrite length_insert|]. intros j.
destruct (decide (j = i)) as [->|Hj].
- rewrite list_lookup_insert_eq by done. by rewrite Hs0.
- by rewrite list_lookup_insert_ne.
Qed.

Lemma sweep_from_exploring (n : nat) : ∀ (g : Globals) i (g' : Globals),
  Qlt_bool (unit_uniform (key g)) (epsilon cfg) = true →
  (i + n <= length (spins g))%nat →
  sweep_from cfg g i n = Some g' →
  key g' = key g ∧ length (spins g') = length (spins g)
  ∧ ∀ j, spins g' !! j
         = if decide (i <= j < i + n)%nat then Z.opp <$> spins g !! j else spins g !! j.
Proof using Type.
induction n as [|n IH]; intros g i g' Htest Hlen Hg'; simpl in Hg'.
- injection Hg' as <-. split; [done|]. split; [done|]. intros j.
  destruct (decide _); [lia|done].
- case_bind Hg' g1 Hg1.
  destruct (particle_update_exploring g i g1 Htest ltac:(lia) Hg1) as (Hk1 & Hl1 & Hs1).
  destruct (IH g1 (S i) g') as (Hk & Hl & Hs); [by rewrite Hk1|lia|done|].
  split; [congruence|]. split; [congruence|]. intros j. rewrite Hs, Hs1.
  repeat case_decide; try done; lia.
Qed.

Lemma sweep_exploring (g g' : Globals) :
  Qlt_bool (unit_uniform (key g)) (epsilon cfg) = true →
  length (spins g) = N cfg →
  sweep cfg g = Some g' →
  key g' = key g ∧ spins g' = Z.opp <$> spins g.
Proof using Type.
intros Htest Hlen Hg'. unfold sweep in Hg'.
destruct (sweep_from_exploring (N cfg) g 0 g' Htest ltac:(lia) Hg') as (Hk & Hl & Hs).
split; [done|]. apply list_eq. intros j. rewrite Hs, list_lookup_fmap.
case_decide as Hj; [done|].
rewrite lookup_ge_None_2 by lia. done.
Qed.

Lemma sweep_total (g : Globals) :
  (0 < num_actions cfg)%nat → well_formed cfg g →
  ∃ g', sweep cfg g = Some g' ∧ well_formed cfg g'.
Proof using Type.
intros Hn Hwf. unfold sweep.
destruct (sweep_from_total cfg (N cfg) g 0 Hn ltac:(lia) Hwf) as (g' & Hg' & Hwf' & _).
eauto.
Qed.

(** X11: in a run whose exploration test succeeds, every macro time-step
    negates all the spins: after an even number of steps the spins are
    those at the start, after an odd number their negation, whatever the
    Q-function, the positions and the velocities are. *)
Theorem exploring_run_alternates_spins (num_steps : nat) (g g' : Globals) :
  Qlt_bool (unit_uniform (key g)) (epsilon cfg) = true →
  length (spins g) = N cfg →
  simulation_loop cfg num_steps g = Some g' →
  spins g' = if Nat.even num_steps then spins g else Z.opp <$> spins g.
Proof using Type.
revert g. induction num_steps as [|t IH]; intros g Htest Hlen Hg'.
- simpl in Hg'. by injection Hg' as <-.
- change (simulation_loop cfg (S t) g) with (g1 ← sweep cfg g; simulation_loop cfg t g1) in Hg'.
  case_bind Hg' g1 Hg1.
  destruct (sweep_exploring g g1 Htest Hlen Hg1) as (Hk & Hs).
  rewrite (IH g1); [|by rewrite Hk|by rewrite Hs, length_fmap|done].
  rewrite Nat.even_succ, <- Nat.negb_even, Hs.
  destruct (Nat.even t); simpl; [done|].
  rewrite <- list_fmap_compose. rewrite <- (list_fmap_id (spins g)) at 2.
  apply list_fmap_ext. intros _ z _. simpl. lia.
Qed.

End Sweeps.

Lemma simulation_loop_lengths_witness :
  ∃ g' : Sample.State,
    simulation_loop Sample.cfg3 2 Sample.g3 = Some g'
    ∧ length (positions g') = length (positions Sample.g3)
    ∧ length (spins g') = length (spins Sample.g3)
    ∧ length (velocities g') = length (velocities Sample.g3).
Proof.
destruct (simulation_loop_total Sample.cfg3 2 Sample.g3) as (g' & Hg' & _);
  [vm_compute; lia|by apply Sample.g3_well_formed|].
exists g'. split; [exact Hg'|].
exact (simulation_loop_lengths Sample.cfg3 2 Sample.g3 g' Hg').
Defined.

Lemma exploring_run_alternates_spins_witness :
  ∃ g' : Sample.State,
    simulation_loop Sample.cfg_explore 3 Sample.g3 = Some g'
    ∧ spins g' = [-1; -1; 1].
Proof.
destruct (simulation_loop_total Sample.cfg_explore 3 Sample.g3) as (g' & Hg' & _);
  [vm_compute; lia|by apply Sample.g3_well_formed|].
exists g'. split; [exact Hg'|].
exact (exploring_run_alternates_spins Sample.cfg_explore 3 Sample.g3 g'
         eq_refl eq_refl Hg').
Defined.

(** ** Average magnetization *)

Lemma sum_pm1_bounds (sp : list Z) :
  Forall pm1 sp → - Z.of_nat (length sp) <= sum sp <= Z.of_nat (length sp).
Proof.
induction 1 as [|s sp [-> | ->] _ IH]; unfold sum in *; simpl length; simpl foldr; lia.
Qed.


Lemma sum_opp (sp : list Z) : sum (Z.opp <$> sp) = - sum sp.
Proof.
induction sp as [|s sp IH]; [done|].
change (sum (Z.opp <$> s :: sp)) with (- s + sum (Z.opp <$> sp)).
change (sum (s :: sp)) with (s + sum sp). lia.
Qed.

Lemma average_magnetization_Some (spins : list Z) (m : Q) :
  average_magnetization spins = Some m →
  spins ≠ [] ∧ m = f32 (inject_Z (sum spins) / inject_Z (Z.of_nat (length spins))).
Proof. destruct spins; [done|]. intros [= <-]. done. Qed.

(** X1: for spins that are all [-1] or [+1], the average magnetization
    lies in [-1, 1]. *)
Theorem average_magnetization_bounds (spins : list Z) (m : Q) :
  Forall pm1 spins → average_magnetization spins = Some m →
  (-1 <= m)%Q ∧ (m <= 1)%Q.
Proof.
intros Hpm (Hne & ->)%average_magnetization_Some.
pose proof (sum_pm1_bounds spins Hpm) as [Hlo Hhi].
assert (Hn : 0 < Z.of_nat (length spins)) by (destruct spins; [done|simpl; lia]).
set (n := Z.of_nat (length spins)) in *. set (t := sum spins) in *. clearbody n t.
assert (Hnq : (0 < inject_Z n)%Q) by (unfold Qlt; simpl; lia).
assert (Hq : (-1 <= inject_Z t / inject_Z n)%Q ∧ (inject_Z t / inject_Z n <= 1)%Q).
{ split.
  - apply Qle_shift_div_l; [done|]. unfold Qle. simpl. lia.
  - apply Qle_shift_div_r; [done|]. unfold Qle. simpl. lia. }
destruct Hq as [Hq1 Hq2]. split.
- apply (f32_mono (-1)) in Hq1. exact Hq1.
- apply (f32_mono _ 1) in Hq2. exact Hq2.
Qed.

Lemma average_magnetization_bounds_witness :
  (-1 <= 11184811 # 33554432)%Q ∧ (11184811 # 33554432 <= 1)%Q.
Proof.
apply (average_magnetization_bounds [1; 1; -1] (11184811 # 33554432)).
- repeat first [apply List.Forall_nil|apply List.Forall_cons; [unfold pm1; lia|]].
- reflexivity.
Defined.



(** X12: negating every spin negates the average magnetization; so does
    each macro time-step of a run whose exploration test succeeds. *)
Theorem exploring_sweep_negates_magnetization `{Optimiser} (cfg : Config)
    (g g' : Globals) (m : Q) :
  Qlt_bool (unit_uniform (key g)) (epsilon cfg) = true →
  length (spins g) = N cfg →
  sweep cfg g = Some g' →
  average_magnetization (spins g) = Some m →
  ∃ m', average_magnetization (spins g') = Some m' ∧ (m' == - m)%Q.
Proof.
intros Htest Hlen Hg' (Hne & ->)%average_magnetization_Some.
destruct (sweep_exploring cfg g g' Htest Hlen Hg') as [_ ->].
exists (f32 (inject_Z (sum (Z.opp <$> spins g))
             / inject_Z (Z.of_nat (length (Z.opp <$> spins g))))).
split; [by destruct (spins g)|].
rewrite sum_opp, length_fmap, <- f32_opp.
assert (Hn : ¬ (inject_Z (Z.of_nat (length (spins g))) == 0)%Q).
{ unfold Qeq. simpl. destruct (spins g); [done|simpl; lia]. }
rewrite (f32_comp (inject_Z (- sum (spins g)) / inject_Z (Z.of_nat (length (spins g))))
           (- (inject_Z (sum (spins g)) / inject_Z (Z.of_nat (length (spins g)))))).
- reflexivity.
- rewrite inject_Z_opp. field. done.
Qed.

Lemma exploring_sweep_negates_magnetization_witness :
  ∃ (g' : Sample.State) m',
    sweep Sample.cfg_explore Sample.g3 = Some g'
    ∧ average_magnetization (spins g') = Some m'
    ∧ (m' == - (11184811 # 33554432))%Q.
Proof.
destruct (sweep_total Sample.cfg_explore Sample.g3) as (g' & Hg' & _);
  [vm_compute; lia|by apply Sample.g3_well_formed|].
destruct (exploring_sweep_negates_magnetization Sample.cfg_explore Sample.g3 g'
            (11184811 # 33554432) eq_refl eq_refl Hg' eq_refl) as (m' & Hm' & Heq).
exists g', m'. split; [exact Hg'|]. split; [exact Hm'|exact Heq].
Defined.

(** ** Initialisation *)

Section Initialisation.
Context `{Optimiser}.
Variable cfg : Config.

(** X15: initialisation gives three arrays of [N] entries, with every
    position in [0, L] when [L >= 0]. *)
Theorem initialize_positions (seed : Z) (g : Globals) :
  initialize cfg seed = Some g →
  length (positions g) = N cfg ∧ length (spins g) = N cfg
  ∧ length (velocities g) = N cfg
  ∧ ((0 <= L cfg)%Q → Forall (λ p, (0 <= p)%Q ∧ (p <= L cfg)%Q) (positions g)).
Proof using Type.
intros (sp & [Hsp _]%random_choice_elem_of & ->)%initialize_Some. simpl.
unfold random_uniform at 1 2. rewrite !length_map, !length_seq.
repeat split; try done. apply random_uniform_range.
Qed.

(** X14: positions and velocities are drawn with the same key and the
    same shape, so from the same unit draws: for [L >= 0] and [v1 <= v2], a
    particle that starts strictly to the right of another is at least as
    fast as it. *)
Theorem initialize_velocity_order_follows_position (seed : Z) (g : Globals) (j k : nat)
    (pj pk vj vk : Q) :
  (0 <= L cfg)%Q → (v1 cfg <= v2 cfg)%Q →
  initialize cfg seed = Some g →
  positions g !! j = Some pj → positions g !! k = Some pk →
  velocities g !! j = Some vj → velocities g !! k = Some vk →
  (pj < pk)%Q → (vj <= vk)%Q.
Proof using Type.
intros HL Hv12 (sp & _ & ->)%initialize_Some. simpl. unfold random_uniform.
rewrite !list_lookup_fmap.
destruct (seq 0 (N cfg) !! j) as [j'|]; [|done].
destruct (seq 0 (N cfg) !! k) as [k'|]; [|done]. simpl.
intros [= <-] [= <-] [= <-] [= <-].
destruct (unit_uniform_at_range (PRNGKey seed) (N cfg) j') as [Hj0 Hj1].
destruct (unit_uniform_at_range (PRNGKey seed) (N cfg) k') as [Hk0 Hk1].
set (uj := unit_uniform_at (PRNGKey seed) (N cfg) j') in *.
set (uk := unit_uniform_at (PRNGKey seed) (N cfg) k') in *. clearbody uj uk.
rewrite (Q.max_r 0 (uj * (L cfg - 0) + 0)), (Q.max_r 0 (uk * (L cfg - 0) + 0)) by nra.
rewrite (Q.max_r (v1 cfg) (uj * (v2 cfg - v1 cfg) + v1 cfg)),
  (Q.max_r (v1 cfg) (uk * (v2 cfg - v1 cfg) + v1 cfg)) by nra.
intros Hlt. destruct (Qlt_le_dec uj uk) as [Hu|Hu]; [nra|exfalso; nra].
Qed.

End Initialisation.

Lemma initialize_positions_witness :
  ∃ g : Sample.State,
    initialize Sample.cfg3 0 = Some g
    ∧ length (positions g) = 3%nat ∧ length (spins g) = 3%nat
    ∧ length (velocities g) = 3%nat
    ∧ ((0 <= L Sample.cfg3)%Q →
       Forall (λ p, (0 <= p)%Q ∧ (p <= L Sample.cfg3)%Q) (positions g)).
Proof.
destruct (@initialize_total Sample.lcg Sample.bias_descent Sample.cfg3 0) as (g & Hg & _).
exists g. split; [exact Hg|]. exact (initialize_positions Sample.cfg3 0 g Hg).
Defined.

Lemma initialize_velocity_order_follows_position_witness :
  ∃ (g : Sample.State) pj pk vj vk,
    initialize Sample.cfg3 0 = Some g
    ∧ positions g !! 1%nat = Some pj ∧ positions g !! 2%nat = Some pk
    ∧ velocities g !! 1%nat = Some vj ∧ velocities g !! 2%nat = Some vk
    ∧ (pj < pk)%Q ∧ (vj <= vk)%Q.
Proof.
destruct (@initialize_total Sample.lcg Sample.bias_descent Sample.cfg3 0) as (g & Hg & _).
pose proof Hg as (sp & _ & Heq)%initialize_Some.
assert (Hpj : positions g !! 1%nat = Some (2681136700 # 2147483648)%Q)
  by (rewrite Heq; vm_compute; reflexivity).
assert (Hpk : positions g !! 2%nat = Some (8943751130 # 2147483648)%Q)
  by (rewrite Heq; vm_compute; reflexivity).
assert (Hvj : velocities g !! 1%nat = Some (45605066780 # 214748364800)%Q)
  by (rewrite Heq; vm_compute; reflexivity).
assert (Hvk : velocities g !! 2%nat = Some (101968596650 # 214748364800)%Q)
  by (rewrite Heq; vm_compute; reflexivity).
assert (Hlt : (2681136700 # 2147483648 < 8943751130 # 2147483648)%Q) by reflexivity.
eexists g, _, _, _, _. split; [exact Hg|]. split; [exact Hpj|]. split; [exact Hpk|].
split; [exact Hvj|]. split; [exact Hvk|]. split; [exact Hlt|].
apply (initialize_velocity_order_follows_position Sample.cfg3 0 g 1 2
  (2681136700 # 2147483648) (8943751130 # 2147483648)
  (45605066780 # 214748364800) (101968596650 # 214748364800));
  [vm_compute; discriminate|vm_compute; discriminate|exact Hg|exact Hpj|exact Hpk
  |exact Hvj|exact Hvk|exact Hlt].
Defined.

(** ** The Ising environment *)

Lemma random_choice_is_Some `{Random} {A} (k : Key) (a : list A) n :
  a ≠ [] → is_Some (random_choice k a n).
Proof.
intros Ha. unfold random_choice. apply mapM_is_Some, Forall_forall.
intros j _. by apply at_index_is_Some.
Qed.

Lemma random_choice_pm1 `{Random} (k : Key) (n : nat) :
  ∃ st, random_choice k [-1; 1] n = Some st ∧ length st = n ∧ Forall pm1 st.
Proof.
destruct (random_choice_is_Some k [-1; 1] n) as [st Hst]; [done|].
exists st. split; [done|].
apply random_choice_elem_of in Hst as [Hlen Hall]. split; [done|].
eapply Forall_impl; [exact Hall|]. intros s Hs. unfold pm1.
apply elem_of_cons in Hs as [->|Hs]; [by right|].
apply list_elem_of_singleton in Hs as ->. by left.
Qed.

(** X16: [reset] always returns: a chain of [N] spins, each [-1] or [+1],
    drawn with the second half of the split key, and the environment with
    the first half as its key; the chain it holds is not replaced ([reset]
    leaves the assignment of [self.state] to its caller). *)
Theorem reset_chain `{Random} (self : t_ising_env) :
  ∃ self' state,
    reset self = Some (self', state)
    ∧ length state = env_N self ∧ Forall pm1 state
    ∧ random_choice (split (env_key self)).2 [-1; 1] (env_N self) = Some state
    ∧ env_key self' = (split (env_key self)).1
    ∧ env_state self' = env_state self ∧ env_N self' = env_N self.
Proof.
unfold reset. destruct (split (env_key self)) as [k sub]. simpl.
destruct (random_choice_pm1 sub (env_N self)) as (st & Hst & Hlen & Hpm).
rewrite Hst. cbn [mbind option_bind]. eexists _, st. done.
Qed.

(** X17: constructing an environment never fails and leaves it with [N]
    spins, each [-1] or [+1], and with the first half of the split seed key,
    whatever the couplings and the seed are. *)
Theorem t_ising_env_init_chain `{Random} (N : nat) (J g : Q) (seed : Z) :
  ∃ env,
    t_ising_env_init N J g seed = Some env
    ∧ env_N env = N ∧ length (env_state env) = N ∧ Forall pm1 (env_state env)
    ∧ env_key env = (split (PRNGKey seed)).1
    ∧ env_J env = J ∧ env_g env = g.
Proof.
unfold t_ising_env_init, reset. simpl. destruct (split (PRNGKey seed)) as [k sub].
destruct (random_choice_pm1 sub N) as (st & Hst & Hlen & Hpm).
rewrite Hst. cbn [mbind option_bind]. eexists. split; [done|]. simpl. done.
Qed.
